(** * go-ipfs p2p stream mounting: registries, forwarding and the [ipfs p2p] commands

    A shallow embedding of
    - [p2p/stream.go]   (Stream, StreamRegistry),
    - [p2p/local.go]    (localListener, ForwardLocal, acceptConns),
    - [core/commands/p2p.go] (forward / close / stream close commands),
    with explicit state passing.  Every call that leaves the process
    (sockets, overlay streams, goroutine spawns) and every registry call is
    appended, in program order, to a call log carried by the state. *)

From Stdlib Require Import NArith Ascii String List Lia.
From stdpp Require Import base option list gmap strings.

Local Open Scope string_scope.
Local Open Scope N_scope.

(** ** Base types *)

(** Go's [error] values are identified with their message. *)
Definition error := string.

Inductive result (A : Type) : Type :=
| Ok (a : A)
| Err (e : error).
Arguments Ok {A} a.
Arguments Err {A} e.

(** [uint64]: a natural number below [2^64]; arithmetic wraps. *)
Definition uint64 := N.
Definition two64 : N := 18446744073709551616.
Definition wrap64 (n : N) : uint64 := n mod two64.
(** [x++] on a [uint64]. *)
Definition incr64 (n : uint64) : uint64 := wrap64 (n + 1).

(** [peer.ID] and [protocol.ID] are Go string types. *)
Definition peerID := string.
Definition protocolID := string.

(** [strings.HasPrefix(s, prefix)]. *)
Definition HasPrefix (s pre : string) : bool := String.prefix pre s.

(** What the embedding takes from libraries outside the repository:
    go-multiaddr ([NewMultiaddr], [String]), go-libp2p-peer ([Pretty]),
    strconv ([ParseUint] at base 10, 64 bits) and the [ParsePeerParam]
    helper of the commands package. *)
Class Externals := {
  Multiaddr : Type;
  NewMultiaddr : string -> result Multiaddr;
  MultiaddrString : Multiaddr -> string;
  Pretty : peerID -> string;
  ParsePeerParam : string -> result (option Multiaddr * peerID);
  ParseUint : string -> result uint64;
  errNotOnline : error
}.

(** A registry key: (protocol, listen address, target address). *)
Definition listenerKey : Type := string * string * string.

(** Calls observable from outside a registry or the process. *)
Inductive Event : Type :=
| EvConnClose (c : nat)                  (* manet.Conn.Close *)
| EvStreamClose (s : nat)                (* net.Stream.Close *)
| EvStreamReset (s : nat)                (* net.Stream.Reset *)
| EvStreamsRegister (h : uint64)         (* StreamRegistry.Register *)
| EvStreamsDeregister (h : uint64)       (* StreamRegistry.Deregister *)
| EvListenersLock (k : listenerKey)      (* ListenerRegistry.lock *)
| EvListenersUnlock                      (* ListenerRegistry.unlock *)
| EvListenersRegister (k : listenerKey)  (* ListenerRegistry.Register *)
| EvListenersDeregister (k : listenerKey)
| EvListen (addr : string)               (* manet.Listen *)
| EvSocketClose (sock : option nat)      (* manet.Listener.Close *)
| EvAccept (sock : option nat)           (* manet.Listener.Accept *)
| EvConnect (p : peerID)                 (* Host.Connect *)
| EvNewStream (p : peerID) (proto : protocolID)
| EvSetStreamHandler (proto : protocolID)
| EvRemoveStreamHandler (proto : protocolID)
| EvAddAddr (p : peerID) (addr : string) (* Peerstore.AddAddr *)
| EvGoAcceptConns (k : listenerKey)      (* go listener.acceptConns() *)
| EvGoCopyRemoteToLocal (h : uint64)     (* go func() { io.Copy(s.Local, s.Remote) ... } *)
| EvGoCopyLocalToRemote (h : uint64).    (* go func() { io.Copy(s.Remote, s.Local) ... } *)

Section P2P.
Context `{ext : Externals}.

(** ** p2p/stream.go *)

(** [manet.Conn]: the accepted local connection. *)
Record Conn := {
  connId : nat;
  RemoteMultiaddr : Multiaddr
}.

(** The only registry a [Stream] is ever given is [l.p2p.Streams]. *)
Inductive RegistryRef := p2pStreamsRef.

Record Stream := {
  id : uint64;
  Protocol : protocolID;
  OriginAddr : Multiaddr;
  TargetAddr : Multiaddr;
  Local : Conn;
  Remote : nat;
  Registry : RegistryRef
}.

Definition set_id (s : Stream) (h : uint64) : Stream :=
  {| id := h; Protocol := Protocol s; OriginAddr := OriginAddr s;
     TargetAddr := TargetAddr s; Local := Local s; Remote := Remote s;
     Registry := Registry s |}.

(** [StreamRegistry]; the mutex makes each method one atomic step, which is
    how the methods are modelled. *)
Record StreamRegistry := {
  Streams : gmap N Stream;
  nextID : uint64
}.

(** A registry as [NewP2P] builds it. *)
Definition newStreamRegistry : StreamRegistry :=
  {| Streams := ∅; nextID := 0 |}.

(** [Register]: returns the stream with its handle set, and the registry. *)
Definition StreamRegistry_Register (streamInfo : Stream) (r : StreamRegistry)
  : Stream * StreamRegistry :=
  let streamInfo' := set_id streamInfo (nextID r) in
  (streamInfo',
   {| Streams := <[nextID r := streamInfo']> (Streams r);
      nextID := incr64 (nextID r) |}).

Definition StreamRegistry_Deregister (streamID : uint64) (r : StreamRegistry)
  : StreamRegistry :=
  {| Streams := delete streamID (Streams r); nextID := nextID r |}.

(** A caller's view of a registry: any interleaving of concurrent callers
    is, because of the mutex, some sequence of these two calls. *)
Inductive RegistryOp :=
| OpRegister (s : Stream)
| OpDeregister (h : uint64).

(** Runs the calls in order; returns the handles the [Register] calls
    assigned, oldest first, and the registry. *)
Fixpoint runOps (ops : list RegistryOp) (r : StreamRegistry)
  : list uint64 * StreamRegistry :=
  match ops with
  | [] => ([], r)
  | OpRegister s :: ops' =>
      let (s', r') := StreamRegistry_Register s r in
      let (hs, r'') := runOps ops' r' in
      (id s' :: hs, r'')
  | OpDeregister h :: ops' => runOps ops' (StreamRegistry_Deregister h r)
  end.

(** Number of [Register] calls in a sequence. *)
Fixpoint registrations (ops : list RegistryOp) : nat :=
  match ops with
  | [] => 0%nat
  | OpRegister _ :: ops' => S (registrations ops')
  | OpDeregister _ :: ops' => registrations ops'
  end.

(** ** p2p/local.go: the listener types *)

(** [localListener].  [listener] is [None] (Go's nil) until the socket is
    bound.  The [ctx] and [p2p] fields are the threaded state. *)
Record localListener := {
  l_id : peerID;
  proto : protocolID;
  laddr : Multiaddr;
  peer : peerID;
  listener : option nat
}.

Definition localListener_Protocol (l : localListener) : string := proto l.
Definition localListener_ListenAddress (l : localListener) : string :=
  MultiaddrString (laddr l).
Definition localListener_TargetAddress (l : localListener) : string :=
  "/ipfs/" ++ Pretty (peer l).

(** Modelled from the spec: the remote-forward listener of p2p/remote.go,
    which is not among the sources (spec 4.4: the listen address renders the
    local identity, the target address is the literal local address). *)
Record remoteListener := {
  r_id : peerID;
  r_proto : protocolID;
  r_addr : Multiaddr
}.

(** The [Listener] interface and its two implementations. *)
Inductive Listener :=
| LocalL (l : localListener)
| RemoteL (l : remoteListener).

Definition Listener_Protocol (l : Listener) : string :=
  match l with
  | LocalL l => localListener_Protocol l
  | RemoteL l => r_proto l
  end.

Definition Listener_ListenAddress (l : Listener) : string :=
  match l with
  | LocalL l => localListener_ListenAddress l
  | RemoteL l => "/ipfs/" ++ Pretty (r_id l)
  end.

Definition Listener_TargetAddress (l : Listener) : string :=
  match l with
  | LocalL l => localListener_TargetAddress l
  | RemoteL l => MultiaddrString (r_addr l)
  end.

(** Modelled from the spec: [getListenerKey] of p2p/registry.go, the
    composite (protocol, listen-address, target-address) identity. *)
Definition getListenerKey (l : Listener) : listenerKey :=
  (Listener_Protocol l, Listener_ListenAddress l, Listener_TargetAddress l).

(** Modelled from the spec: the [ListenerRegistry] of p2p/registry.go
    (spec 4.2): the table of listeners and the single provisional slot
    taken by [lock] and released by [unlock] or [Register]. *)
Record ListenerRegistry := {
  Listeners : gmap listenerKey Listener;
  reserved : option listenerKey
}.

Definition newListenerRegistry : ListenerRegistry :=
  {| Listeners := ∅; reserved := None |}.

(** Modelled from the spec: [lock] fails when a listener with the
    candidate's key exists or a registration for that key is in flight;
    otherwise it reserves the key. *)
Definition ListenerRegistry_lock (l : Listener) (r : ListenerRegistry)
  : result ListenerRegistry :=
  let k := getListenerKey l in
  match Listeners r !! k with
  | Some _ => Err "listener already registered"
  | None =>
      if decide (reserved r = Some k) then Err "listener already registered"
      else Ok {| Listeners := Listeners r; reserved := Some k |}
  end.

(** Modelled from the spec: [unlock] releases the reservation. *)
Definition ListenerRegistry_unlock (r : ListenerRegistry) : ListenerRegistry :=
  {| Listeners := Listeners r; reserved := None |}.

(** Modelled from the spec: [Register] inserts at the key and clears the
    reservation. *)
Definition ListenerRegistry_Register (l : Listener) (r : ListenerRegistry)
  : ListenerRegistry :=
  {| Listeners := <[getListenerKey l := l]> (Listeners r); reserved := None |}.

(** Modelled from the spec: [Deregister] removes the entry if present. *)
Definition ListenerRegistry_Deregister (k : listenerKey) (r : ListenerRegistry)
  : ListenerRegistry :=
  {| Listeners := delete k (Listeners r); reserved := reserved r |}.

(** ** The [P2P] object: both registries, the identity, and the call log *)

Record P2P := {
  identity : peerID;
  p2pListeners : ListenerRegistry;
  p2pStreams : StreamRegistry;
  calls : list Event
}.

Definition NewP2P (identity : peerID) : P2P :=
  {| identity := identity; p2pListeners := newListenerRegistry;
     p2pStreams := newStreamRegistry; calls := [] |}.

Definition emit (e : Event) (w : P2P) : P2P :=
  {| identity := identity w; p2pListeners := p2pListeners w;
     p2pStreams := p2pStreams w; calls := calls w ++ [e] |}.

Definition with_streams (r : StreamRegistry) (w : P2P) : P2P :=
  {| identity := identity w; p2pListeners := p2pListeners w;
     p2pStreams := r; calls := calls w |}.

Definition with_listeners (r : ListenerRegistry) (w : P2P) : P2P :=
  {| identity := identity w; p2pListeners := r;
     p2pStreams := p2pStreams w; calls := calls w |}.

(** Registry methods called through the [P2P] object (or a stream's
    [Registry] back-reference): the call is logged, then performed. *)
Definition Streams_Register (s : Stream) (w : P2P) : Stream * P2P :=
  let (s', r') := StreamRegistry_Register s (p2pStreams w) in
  (s', with_streams r' (emit (EvStreamsRegister (id s')) w)).

Definition Streams_Deregister (ref : RegistryRef) (h : uint64) (w : P2P) : P2P :=
  match ref with
  | p2pStreamsRef =>
      with_streams (StreamRegistry_Deregister h (p2pStreams w))
                   (emit (EvStreamsDeregister h) w)
  end.

Definition Listeners_lock (l : Listener) (w : P2P) : option error * P2P :=
  let w1 := emit (EvListenersLock (getListenerKey l)) w in
  match ListenerRegistry_lock l (p2pListeners w) with
  | Err e => (Some e, w1)
  | Ok r' => (None, with_listeners r' w1)
  end.

Definition Listeners_unlock (w : P2P) : P2P :=
  with_listeners (ListenerRegistry_unlock (p2pListeners w))
                 (emit EvListenersUnlock w).

Definition Listeners_Register (l : Listener) (w : P2P) : P2P :=
  with_listeners (ListenerRegistry_Register l (p2pListeners w))
                 (emit (EvListenersRegister (getListenerKey l)) w).

Definition Listeners_Deregister (k : listenerKey) (w : P2P) : P2P :=
  with_listeners (ListenerRegistry_Deregister k (p2pListeners w))
                 (emit (EvListenersDeregister k) w).

(** ** p2p/stream.go: closing a stream and the relay *)

(** [Stream.Close]: always returns nil. *)
Definition Stream_Close (s : Stream) (w : P2P) : option error * P2P :=
  let w1 := emit (EvConnClose (connId (Local s))) w in
  let w2 := emit (EvStreamClose (Remote s)) w1 in
  let w3 := Streams_Deregister (Registry s) (id s) w2 in
  (None, w3).

(** [Stream.Reset]: always returns nil. *)
Definition Stream_Reset (s : Stream) (w : P2P) : option error * P2P :=
  let w1 := emit (EvConnClose (connId (Local s))) w in
  let w2 := emit (EvStreamReset (Remote s)) w1 in
  let w3 := Streams_Deregister (Registry s) (id s) w2 in
  (None, w3).

(** A goroutine started by [startStreaming]: an [io.Copy(dst, src)] and what
    runs once the copy has returned with error [err] (nil on end of stream). *)
Inductive Endpoint := LocalEnd | RemoteEnd.

Record goroutine := {
  copy_dst : Endpoint;
  copy_src : Endpoint;
  after_copy : option error -> P2P -> option error * P2P
}.

Definition startStreaming (s : Stream) (w : P2P) : list goroutine * P2P :=
  let g1 := {| copy_dst := LocalEnd; copy_src := RemoteEnd;
               after_copy := fun _ => Stream_Reset s |} in
  let w1 := emit (EvGoCopyRemoteToLocal (id s)) w in
  let g2 := {| copy_dst := RemoteEnd; copy_src := LocalEnd;
               after_copy := fun err =>
                 match err with
                 | Some _ => Stream_Reset s
                 | None => Stream_Close s
                 end |} in
  let w2 := emit (EvGoCopyLocalToRemote (id s)) w1 in
  ([g1; g2], w2).

(** ** p2p/local.go: ForwardLocal and the accept loop *)

(** The listener value [ForwardLocal] builds before the socket exists. *)
Definition candidate (w : P2P) (peer : peerID) (proto : string)
    (bindAddr : Multiaddr) : localListener :=
  {| l_id := identity w; proto := proto; laddr := bindAddr; peer := peer;
     listener := None |}.

(** [listener.listener = maListener]. *)
Definition bind_socket (l : localListener) (maListener : nat) : localListener :=
  {| l_id := l_id l; proto := proto l; laddr := laddr l; peer := peer l;
     listener := Some maListener |}.

(** [ForwardLocal].  [listenResult] is what [manet.Listen(bindAddr)] returns
    when it is reached. *)
Definition ForwardLocal (peer : peerID) (proto : string) (bindAddr : Multiaddr)
    (listenResult : result nat) (w : P2P) : result Listener * P2P :=
  let listener :=
    {| l_id := identity w; proto := proto; laddr := bindAddr; peer := peer;
       listener := None |} in
  match Listeners_lock (LocalL listener) w with
  | (Some err, w1) => (Err err, w1)
  | (None, w1) =>
      let w2 := emit (EvListen (MultiaddrString bindAddr)) w1 in
      match listenResult with
      | Err err => (Err err, Listeners_unlock w2)
      | Ok maListener =>
          let listener := bind_socket listener maListener in
          let w3 := Listeners_Register (LocalL listener) w2 in
          let w4 := emit (EvGoAcceptConns (getListenerKey (LocalL listener))) w3 in
          (Ok (LocalL listener), w4)
      end
  end.

(** [dial]: [connectResult] and [newStreamResult] are what [Host.Connect]
    and [Host.NewStream] return when they are reached. *)
Definition dial (l : localListener) (connectResult : option error)
    (newStreamResult : result nat) (w : P2P) : result nat * P2P :=
  let w1 := emit (EvConnect (peer l)) w in
  match connectResult with
  | Some err => (Err err, w1)
  | None => (newStreamResult, emit (EvNewStream (peer l) (proto l)) w1)
  end.

(** What the outside world answers during one iteration of the accept loop. *)
Record AcceptStep := {
  acceptResult : result Conn;
  connectResult : option error;
  newStreamResult : result nat
}.

(** The loop has returned, or it waits in [Accept] for a connection that
    the script does not contain. *)
Inductive LoopStatus := LoopReturned | LoopWaiting.

(** [acceptConns], one iteration per element of [script]; also returns the
    streams it built, oldest first. *)
Fixpoint acceptConns (l : localListener) (script : list AcceptStep) (w : P2P)
  : LoopStatus * list Stream * P2P :=
  match script with
  | [] => (LoopWaiting, [], w)
  | step :: script' =>
      let w0 := emit (EvAccept (listener l)) w in
      match acceptResult step with
      | Err _ => (LoopReturned, [], w0)
      | Ok local =>
          match dial l (connectResult step) (newStreamResult step) w0 with
          | (Err _, w1) =>
              (LoopReturned, [], emit (EvConnClose (connId local)) w1)
          | (Ok remote, w1) =>
              match NewMultiaddr (localListener_TargetAddress l) with
              | Err _ =>
                  (LoopReturned, [], emit (EvConnClose (connId local)) w1)
              | Ok tgt =>
                  let stream :=
                    {| id := 0; Protocol := proto l;
                       OriginAddr := RemoteMultiaddr local; TargetAddr := tgt;
                       Local := local; Remote := remote;
                       Registry := p2pStreamsRef |} in
                  let (stream', w2) := Streams_Register stream w1 in
                  let (_, w3) := startStreaming stream' w2 in
                  let '(status, built, w4) := acceptConns l script' w3 in
                  (status, stream' :: built, w4)
              end
          end
      end
  end.

(** [localListener.Close]: always returns nil. *)
Definition localListener_Close (l : localListener) (w : P2P) : option error * P2P :=
  let w1 := emit (EvSocketClose (listener l)) w in
  (None, Listeners_Deregister (getListenerKey (LocalL l)) w1).

(** Modelled from the spec: [remoteListener.Close] unregisters the protocol
    handler and deregisters the listener (spec 4.4). *)
Definition remoteListener_Close (l : remoteListener) (w : P2P) : option error * P2P :=
  let w1 := emit (EvRemoveStreamHandler (r_proto l)) w in
  (None, Listeners_Deregister (getListenerKey (RemoteL l)) w1).

Definition Listener_Close (l : Listener) (w : P2P) : option error * P2P :=
  match l with
  | LocalL l => localListener_Close l w
  | RemoteL l => remoteListener_Close l w
  end.

(** Modelled from the spec: [ForwardRemote] of p2p/remote.go (spec 4.4):
    the same lock / register sequence, the external step being the
    registration of the protocol handler. *)
Definition ForwardRemote (proto : string) (addr : Multiaddr) (w : P2P)
  : result Listener * P2P :=
  let listener := {| r_id := identity w; r_proto := proto; r_addr := addr |} in
  match Listeners_lock (RemoteL listener) w with
  | (Some err, w1) => (Err err, w1)
  | (None, w1) =>
      let w2 := emit (EvSetStreamHandler proto) w1 in
      (Ok (RemoteL listener), Listeners_Register (RemoteL listener) w2)
  end.

(** ** core/commands/p2p.go *)

(** The value given to [res.SetOutput]: nil, or the [int] count of the
    close command (bounded by the number of registered listeners). *)
Inductive Output := OutNil | OutInt (n : N).

(** [cmds.Response], as far as the commands write it. *)
Record Response := {
  resError : option error;
  resOutput : Output
}.

Definition newResponse : Response := {| resError := None; resOutput := OutNil |}.

Definition SetError (err : error) (res : Response) : Response :=
  {| resError := Some err; resOutput := resOutput res |}.

Definition SetOutput (v : Output) (res : Response) : Response :=
  {| resError := resError res; resOutput := v |}.

(** What [p2pGetNode] reads from the request's invocation context. *)
Record NodeEnv := {
  getNodeErr : option error;
  configErr : option error;
  Libp2pStreamMounting : bool;
  OnlineMode : bool
}.

(** [p2pGetNode]: [None] when the node is returned. *)
Definition p2pGetNode (req : NodeEnv) : option error :=
  match getNodeErr req with
  | Some err => Some err
  | None =>
      match configErr req with
      | Some err => Some err
      | None =>
          if negb (Libp2pStreamMounting req)
          then Some "libp2p stream mounting not enabled"
          else if negb (OnlineMode req) then Some errNotOnline
          else None
      end
  end.

Definition result_err {A} (r : result A) : option error :=
  match r with
  | Ok _ => None
  | Err e => Some e
  end.

(** [forwardRemote]. *)
Definition forwardRemote (proto target : string) (w : P2P) : option error * P2P :=
  if HasPrefix target "/ipfs"
  then (Some "cannot forward libp2p service connections to another libp2p service", w)
  else
    match NewMultiaddr target with
    | Err err => (Some err, w)
    | Ok addr =>
        let (r, w') := ForwardRemote proto addr w in
        (result_err r, w')
    end.

(** [forwardLocal]; [listenResult] as in [ForwardLocal]. *)
Definition forwardLocal (proto listen target : string)
    (listenResult : result nat) (w : P2P) : option error * P2P :=
  match NewMultiaddr listen with
  | Err err => (Some err, w)
  | Ok bindAddr =>
      match ParsePeerParam target with
      | Err err => (Some err, w)
      | Ok (addr, peer) =>
          let w1 :=
            match addr with
            | Some a => emit (EvAddAddr peer (MultiaddrString a)) w
            | None => w
            end in
          let (r, w2) := ForwardLocal peer proto bindAddr listenResult w1 in
          (result_err r, w2)
      end
  end.

(** [p2pForwardCmd.Run] on the three required arguments. *)
Definition p2pForwardCmd_Run (req : NodeEnv) (protocol listen target : string)
    (listenResult : result nat) (w : P2P) (res : Response) : Response * P2P :=
  match p2pGetNode req with
  | Some err => (SetError err res, w)
  | None =>
      let proto := "/p2p/" ++ protocol in
      if HasPrefix listen "/ipfs" then
        if negb (String.eqb listen "/ipfs") then
          (SetError "only '/ipfs' is allowed as libp2p listen address" res, w)
        else
          match forwardRemote proto target w with
          | (Some err, w') => (SetError err res, w')
          | (None, w') => (SetOutput OutNil res, w')
          end
      else
        match forwardLocal proto listen target listenResult w with
        | (Some err, w') => (SetError err res, w')
        | (None, w') => (SetOutput OutNil res, w')
        end
  end.

(** The options of [ipfs p2p close]; a string option is [None] when it was
    not given ([req.Option(..).String()] then returns the empty string and
    found = false). *)
Record CloseOpts := {
  optAll : bool;
  optProtocol : option string;
  optListenAddress : option string;
  optTargetAddress : option string
}.

Definition opt_value (o : option string) : string := default EmptyString o.
Definition opt_found (o : option string) : bool := bool_decide (is_Some o).

(** The [match] closure of [p2pCloseCmd.Run].  It assigns to the captured
    variable [proto]: the value after the call is returned with the verdict. *)
Definition closeMatch (opts : CloseOpts) (proto : string) (listener : Listener)
  : bool * string :=
  let closeAll := optAll opts in
  let p := opt_found (optProtocol opts) in
  let l := opt_found (optListenAddress opts) in
  let t := opt_found (optTargetAddress opts) in
  let listen := opt_value (optListenAddress opts) in
  let target := opt_value (optTargetAddress opts) in
  let out := true in
  let proto := if p || negb (HasPrefix proto "/p2p/")
               then "/p2p/" ++ proto else proto in
  let out := if p then out && String.eqb proto (Listener_Protocol listener) else out in
  let out := if l then out && String.eqb listen (Listener_ListenAddress listener) else out in
  let out := if t then out && String.eqb target (Listener_TargetAddress listener) else out in
  let out := out || closeAll in
  (out, proto).

(** The [range] loop of [p2pCloseCmd.Run].  [order] is the order in which
    the Go runtime visits the keys of the map; a key deleted before it is
    reached is not produced. *)
Fixpoint closeListeners (opts : CloseOpts) (order : list listenerKey)
    (proto : string) (closed : N) (w : P2P) : N * P2P :=
  match order with
  | [] => (closed, w)
  | k :: order' =>
      match Listeners (p2pListeners w) !! k with
      | None => closeListeners opts order' proto closed w
      | Some listener =>
          let (out, proto') := closeMatch opts proto listener in
          if negb out then closeListeners opts order' proto' closed w
          else
            let (_, w') := Listener_Close listener w in
            closeListeners opts order' proto' (closed + 1) w'
      end
  end.

(** [p2pCloseCmd.Run]. *)
Definition p2pCloseCmd_Run (req : NodeEnv) (opts : CloseOpts)
    (order : list listenerKey) (w : P2P) (res : Response) : Response * P2P :=
  let res := SetOutput OutNil res in
  match p2pGetNode req with
  | Some err => (SetError err res, w)
  | None =>
      let closeAll := optAll opts in
      let p := opt_found (optProtocol opts) in
      let l := opt_found (optListenAddress opts) in
      let t := opt_found (optTargetAddress opts) in
      if negb (closeAll || p || l || t) then
        (SetError "no connection matching options given" res, w)
      else if closeAll && (p || l || t) then
        (SetError "can't combine --all with other matching options" res, w)
      else
        let (closed, w') :=
          closeListeners opts order (opt_value (optProtocol opts)) 0 w in
        (SetOutput (OutInt closed) res, w')
  end.

(** The [range] loop of [p2pStreamCloseCmd.Run]; [order] as above. *)
Fixpoint closeStreams (closeAll : bool) (handlerID : uint64)
    (order : list uint64) (w : P2P) : P2P :=
  match order with
  | [] => w
  | id :: order' =>
      match Streams (p2pStreams w) !! id with
      | None => closeStreams closeAll handlerID order' w
      | Some stream =>
          if negb closeAll && negb (N.eqb handlerID id)
          then closeStreams closeAll handlerID order' w
          else
            let (_, w') := Stream_Reset stream w in
            if negb closeAll then w'
            else closeStreams closeAll handlerID order' w'
      end
  end.

(** [p2pStreamCloseCmd.Run]; [args] are the positional arguments. *)
Definition p2pStreamCloseCmd_Run (req : NodeEnv) (closeAll : bool)
    (args : list string) (order : list uint64) (w : P2P) (res : Response)
  : Response * P2P :=
  let res := SetOutput OutNil res in
  match p2pGetNode req with
  | Some err => (SetError err res, w)
  | None =>
      if negb closeAll then
        match args with
        | [] => (SetError "no id specified" res, w)
        | arg0 :: _ =>
            match ParseUint arg0 with
            | Err err => (SetError err res, w)
            | Ok handlerID => (res, closeStreams closeAll handlerID order w)
            end
        end
      else (res, closeStreams closeAll 0 order w)
  end.

(** ** core/commands/p2p.go: the listing commands *)

Record P2PListenerInfoOutput := {
  li_Protocol : string;
  li_ListenAddress : string;
  li_TargetAddress : string
}.

Record P2PStreamInfoOutput := {
  si_HandlerID : string;
  si_Protocol : string;
  si_OriginAddress : string;
  si_TargetAddress : string
}.

(** What a listing command leaves in its response: the error given to
    [SetError], and the list inside the [P2PLsOutput] / [P2PStreamsOutput]
    given to [SetOutput] ([None] while no output is set). *)
Record ListResponse (A : Type) := {
  lrError : option error;
  lrOutput : option (list A)
}.
Arguments lrError {A} _.
Arguments lrOutput {A} _.

Definition listenerInfo (listener : Listener) : P2PListenerInfoOutput :=
  {| li_Protocol := Listener_Protocol listener;
     li_ListenAddress := Listener_ListenAddress listener;
     li_TargetAddress := Listener_TargetAddress listener |}.

(** The [range] loop of [p2pLsCmd.Run]; [order] as in [closeListeners]. *)
Fixpoint lsListeners (order : list listenerKey) (w : P2P)
  : list P2PListenerInfoOutput :=
  match order with
  | [] => []
  | k :: order' =>
      match Listeners (p2pListeners w) !! k with
      | None => lsListeners order' w
      | Some listener => listenerInfo listener :: lsListeners order' w
      end
  end.

(** [p2pLsCmd.Run]. *)
Definition p2pLsCmd_Run (req : NodeEnv) (order : list listenerKey) (w : P2P)
  : ListResponse P2PListenerInfoOutput :=
  match p2pGetNode req with
  | Some err => {| lrError := Some err; lrOutput := None |}
  | None => {| lrError := None; lrOutput := Some (lsListeners order w) |}
  end.

(** [strconv.FormatUint(id, 10)], from the Go standard library. *)
Variable FormatUint : uint64 -> string.

Definition streamInfo (id : uint64) (s : Stream) : P2PStreamInfoOutput :=
  {| si_HandlerID := FormatUint id;
     si_Protocol := Protocol s;
     si_OriginAddress := MultiaddrString (OriginAddr s);
     si_TargetAddress := MultiaddrString (TargetAddr s) |}.

(** The [range] loop of [p2pStreamLsCmd.Run]. *)
Fixpoint lsStreams (order : list uint64) (w : P2P) : list P2PStreamInfoOutput :=
  match order with
  | [] => []
  | id :: order' =>
      match Streams (p2pStreams w) !! id with
      | None => lsStreams order' w
      | Some s => streamInfo id s :: lsStreams order' w
      end
  end.

(** [p2pStreamLsCmd.Run]. *)
Definition p2pStreamLsCmd_Run (req : NodeEnv) (order : list uint64) (w : P2P)
  : ListResponse P2PStreamInfoOutput :=
  match p2pGetNode req with
  | Some err => {| lrError := Some err; lrOutput := None |}
  | None => {| lrError := None; lrOutput := Some (lsStreams order w) |}
  end.

(** The text marshalers of the two listing commands: the strings written to
    the [tabwriter], one per [Fprintln] / [Fprintf] call, in order.  The
    column padding the tabwriter then applies is not modelled. *)
Definition tab : string := String "009"%char EmptyString.
Definition newline : string := String "010"%char EmptyString.

Definition lsHeader : string :=
  "Protocol" ++ tab ++ "Listen Address" ++ tab ++ "Target Address" ++ newline.

Definition lsRow (l : P2PListenerInfoOutput) : string :=
  li_Protocol l ++ tab ++ li_ListenAddress l ++ tab ++ li_TargetAddress l
    ++ newline.

Fixpoint lsTextWrites (headers : bool) (rows : list P2PListenerInfoOutput)
  : list string :=
  match rows with
  | [] => []
  | l :: rows' =>
      (if headers then cons lsHeader else fun ws => ws)
        (lsRow l :: lsTextWrites headers rows')
  end.

Definition streamsHeader : string :=
  "Id" ++ tab ++ "Protocol" ++ tab ++ "Origin" ++ tab ++ "Target" ++ newline.

Definition streamsRow (s : P2PStreamInfoOutput) : string :=
  si_HandlerID s ++ tab ++ si_Protocol s ++ tab ++ si_OriginAddress s ++ tab
    ++ si_TargetAddress s ++ newline.

Fixpoint streamsTextWrites (headers : bool) (rows : list P2PStreamInfoOutput)
  : list string :=
  match rows with
  | [] => []
  | s :: rows' =>
      (if headers then cons streamsHeader else fun ws => ws)
        (streamsRow s :: streamsTextWrites headers rows')
  end.

(** ** Reference descriptions used to state properties of the loops *)




(** The log entries that record a [ListenerRegistry.Deregister] call, and
    those that record a [net.Stream.Reset] call. *)
Definition is_ListenersDeregister (e : Event) : bool :=
  match e with
  | EvListenersDeregister _ => true
  | _ => false
  end.

Definition is_StreamReset (e : Event) : bool :=
  match e with
  | EvStreamReset _ => true
  | _ => false
  end.

(** Every entry of the table carries its key as handle. *)
Definition handles_match_keys (r : StreamRegistry) : Prop :=
  forall h s, Streams r !! h = Some s -> id s = h.

(** Every listener of the table is stored under its own key. *)
Definition listeners_under_own_key (r : ListenerRegistry) : Prop :=
  forall k l, Listeners r !! k = Some l -> getListenerKey l = k.

End P2P.

(** ** A concrete instance of the external libraries

    Used to run the model on concrete inputs: a multiaddr is its text and is
    accepted when it starts with a slash, a peer identity prints as itself,
    a peer parameter is [/ipfs/<peer>], and [ParseUint] reads decimal digits
    and rejects values of [2^64] and above. *)

Definition digit_of (c : ascii) : option N :=
  let n := N_of_ascii c in
  if (48 <=? n) && (n <=? 57) then Some (n - 48) else None.

Fixpoint parse_digits (s : string) (acc : N) : option N :=
  match s with
  | EmptyString => Some acc
  | String c s' =>
      match digit_of c with
      | Some d => parse_digits s' (10 * acc + d)
      | None => None
      end
  end.

Definition testParseUint (s : string) : result uint64 :=
  match s with
  | EmptyString => Err "invalid syntax"
  | _ =>
      match parse_digits s 0 with
      | Some n => if n <? two64 then Ok n else Err "value out of range"
      | None => Err "invalid syntax"
      end
  end.

Definition testNewMultiaddr (s : string) : result string :=
  if HasPrefix s "/" then Ok s else Err "invalid multiaddr".

Definition testParsePeerParam (s : string) : result (option string * peerID) :=
  if HasPrefix s "/ipfs/"
  then Ok (None, String.substring 6 (String.length s - 6) s)
  else Err "invalid peer address".

Definition testExternals : Externals :=
  {| Multiaddr := string;
     NewMultiaddr := testNewMultiaddr;
     MultiaddrString := fun a => a;
     Pretty := fun p => p;
     ParsePeerParam := testParsePeerParam;
     ParseUint := testParseUint;
     errNotOnline := "this command must be run in online mode" |}.

(** A stream value as the accept loop builds it, before registration. *)
Definition testConn (c : nat) : @Conn testExternals :=
  {| connId := c; RemoteMultiaddr := "/ip4/127.0.0.1/tcp/5000" : @Multiaddr testExternals |}.

Definition testStream (c : nat) : @Stream testExternals :=
  {| id := 0; Protocol := "/p2p/echo";
     OriginAddr := "/ip4/127.0.0.1/tcp/5000" : @Multiaddr testExternals;
     TargetAddr := "/ipfs/QmPeer" : @Multiaddr testExternals;
     Local := testConn c; Remote := c; Registry := p2pStreamsRef |}.

(** A node with identity QmSelf, and the listener that
    [ipfs p2p forward echo /ip4/127.0.0.1/tcp/4567 /ipfs/QmPeer] opens on it
    when the socket is bound as descriptor 3. *)
Definition testNode : @P2P testExternals := NewP2P "QmSelf".

Definition testBindAddr : @Multiaddr testExternals := "/ip4/127.0.0.1/tcp/4567".

Definition echoListener : @localListener testExternals :=
  bind_socket (candidate testNode "QmPeer" "/p2p/echo" testBindAddr) 3.

Definition testNodeForwarding : @P2P testExternals :=
  snd (ForwardLocal "QmPeer" "/p2p/echo" testBindAddr (Ok 3%nat) testNode).

(** Two local connections arrive; the dial for the first one fails, the
    dial for the second one would succeed. *)
Definition dialFailureScript : list (@AcceptStep testExternals) :=
  [ {| acceptResult := Ok (testConn 10);
       connectResult := Some "dial backoff";
       newStreamResult := Err "not reached" |};
    {| acceptResult := Ok (testConn 11);
       connectResult := None;
       newStreamResult := Ok 21%nat |} ].

(** The request context of a node that is online with stream mounting
    enabled. *)
Definition onlineNode : NodeEnv :=
  {| getNodeErr := None; configErr := None;
     Libp2pStreamMounting := true; OnlineMode := true |}.

(** [ipfs p2p close -p <protocol>]. *)
Definition closeByProtocol (protocol : string) : CloseOpts :=
  {| optAll := false; optProtocol := Some protocol;
     optListenAddress := None; optTargetAddress := None |}.

(** A node after [ipfs p2p forward a /ip4/127.0.0.1/tcp/1001 /ipfs/QmPeer]
    and [ipfs p2p forward b /ip4/127.0.0.1/tcp/1002 /ipfs/QmPeer]. *)
Definition twoListenersNode : @P2P testExternals :=
  snd (p2pForwardCmd_Run onlineNode "b" "/ip4/127.0.0.1/tcp/1002" "/ipfs/QmPeer"
         (Ok 4%nat)
         (snd (p2pForwardCmd_Run onlineNode "a" "/ip4/127.0.0.1/tcp/1001"
                 "/ipfs/QmPeer" (Ok 3%nat) testNode newResponse))
         newResponse).

Definition keyA : listenerKey := ("/p2p/a", "/ip4/127.0.0.1/tcp/1001", "/ipfs/QmPeer").
Definition keyB : listenerKey := ("/p2p/b", "/ip4/127.0.0.1/tcp/1002", "/ipfs/QmPeer").

(** * Properties *)

Local Open Scope list_scope.

Section StreamRegistryFacts.
Context `{ext : Externals}.

Lemma wrap64_small n : n < two64 -> wrap64 n = n.
Proof. intros H. unfold wrap64. now apply N.mod_small. Qed.

Lemma wrap64_lt n : wrap64 n < two64.
Proof. unfold wrap64. apply N.mod_lt. unfold two64. lia. Qed.

Lemma Register_id (s : Stream) r : id (fst (StreamRegistry_Register s r)) = nextID r.
Proof. reflexivity. Qed.

Lemma Register_nextID (s : Stream) r :
  nextID (snd (StreamRegistry_Register s r)) = incr64 (nextID r).
Proof. reflexivity. Qed.

Lemma Deregister_nextID h (r : StreamRegistry) :
  nextID (StreamRegistry_Deregister h r) = nextID r.
Proof. reflexivity. Qed.

Lemma runOps_length ops : forall r : StreamRegistry,
  length (fst (runOps ops r)) = registrations ops.
Proof.
  induction ops as [|[s|h] ops IH]; intros r; simpl.
  - reflexivity.
  - destruct (runOps ops _) as [hs r''] eqn:E. simpl.
    f_equal. specialize (IH (snd (StreamRegistry_Register s r))).
    simpl in IH. now rewrite E in IH.
  - apply IH.
Qed.

(** The [i]-th handle assigned is the counter's start plus [i], wrapped. *)
Lemma runOps_lookup ops : forall (r : StreamRegistry) (i : nat) h,
  nextID r < two64 ->
  fst (runOps ops r) !! i = Some h ->
  h = wrap64 (nextID r + N.of_nat i).
Proof.
  induction ops as [|[s|d] ops IH]; intros r i h Hlt Hi; simpl in Hi.
  - discriminate.
  - destruct (runOps ops _) as [hs r''] eqn:E. simpl in Hi.
    destruct i as [|i]; simpl in Hi.
    + inversion Hi; subst. rewrite N.add_0_r. symmetry. now apply wrap64_small.
    + specialize (IH (snd (StreamRegistry_Register s r)) i h).
      simpl in IH. rewrite E in IH. simpl in IH.
      specialize (IH (wrap64_lt _) Hi). subst h.
      unfold incr64, wrap64.
      rewrite N.Div0.add_mod_idemp_l. f_equal. lia.
  - apply (IH (StreamRegistry_Deregister d r) i h); assumption.
Qed.

Lemma runOps_app ops1 : forall ops2 (r : StreamRegistry),
  runOps (ops1 ++ ops2) r =
  (fst (runOps ops1 r) ++ fst (runOps ops2 (snd (runOps ops1 r))),
   snd (runOps ops2 (snd (runOps ops1 r)))).
Proof.
  induction ops1 as [|[s|d] ops1 IH]; intros ops2 r; simpl.
  - now destruct (runOps ops2 r).
  - rewrite IH.
    destruct (runOps ops1 _) as [hs1 r1]. reflexivity.
  - apply IH.
Qed.

Lemma registrations_app ops1 ops2 :
  registrations (ops1 ++ ops2) = (registrations ops1 + registrations ops2)%nat.
Proof.
  induction ops1 as [|[s|d] ops1 IH]; simpl; auto.
Qed.

(** A handle present in the table was there at the start or has been
    assigned since. *)
Lemma runOps_present ops : forall (r : StreamRegistry) h,
  is_Some (Streams (snd (runOps ops r)) !! h) ->
  is_Some (Streams r !! h) \/ h ∈ fst (runOps ops r).
Proof.
  induction ops as [|[s|d] ops IH]; intros r h Hh; simpl in *.
  - now left.
  - destruct (runOps ops _) as [hs r''] eqn:E. simpl in *.
    specialize (IH (snd (StreamRegistry_Register s r)) h).
    simpl in IH. rewrite E in IH. simpl in IH.
    destruct (IH Hh) as [Hin | Hin].
    + destruct (decide (nextID r = h)) as [->|Hne].
      * right. constructor.
      * rewrite lookup_insert_ne in Hin by assumption. now left.
    + right. now constructor.
  - destruct (IH _ _ Hh) as [Hin | Hin]; [left | now right].
    simpl in Hin. destruct (decide (d = h)) as [->|Hne].
    + rewrite lookup_delete_eq in Hin. now destruct Hin.
    + now rewrite lookup_delete_ne in Hin.
Qed.

(** Below the wrap-around the handles are the call indices. *)
Lemma runOps_handles_seq ops :
  N.of_nat (registrations ops) <= two64 ->
  fst (runOps ops newStreamRegistry) = N.of_nat <$> seq 0 (registrations ops).
Proof.
  intros Hb. apply list_eq. intros i.
  rewrite list_lookup_fmap.
  destruct (decide (i < registrations ops)%nat) as [Hi|Hi].
  - rewrite lookup_seq_lt by assumption. simpl.
    destruct (lookup_lt_is_Some_2 (fst (runOps ops newStreamRegistry)) i) as [h Hh].
    { now rewrite runOps_length. }
    rewrite Hh. f_equal.
    apply runOps_lookup in Hh; [|unfold two64; simpl; lia].
    subst h. simpl. rewrite N.add_0_l. apply wrap64_small. lia.
  - rewrite (lookup_ge_None_2 (seq 0 _)) by (rewrite length_seq; lia).
    simpl. apply lookup_ge_None_2. rewrite runOps_length. lia.
Qed.

End StreamRegistryFacts.

(** C1 (as amended).  On a fresh registry, as long as no more than [2^64]
    registrations are made, the [Register] calls of any sequence of
    [Register] and [Deregister] calls are given the handles 0, 1, ..., N-1 in
    order, without repeats, and a handle that is in the table when
    [Deregister] frees it is not assigned by any later [Register]. *)
Theorem Register_handles_fresh_below_wrap `{ext : Externals} (ops : list RegistryOp) :
  N.of_nat (registrations ops) <= two64 ->
  fst (runOps ops newStreamRegistry) = N.of_nat <$> seq 0 (registrations ops)
  /\ NoDup (fst (runOps ops newStreamRegistry))
  /\ (forall ops1 h ops2,
        ops = ops1 ++ OpDeregister h :: ops2 ->
        is_Some (Streams (snd (runOps ops1 newStreamRegistry)) !! h) ->
        h ∉ fst (runOps ops2
                  (StreamRegistry_Deregister h (snd (runOps ops1 newStreamRegistry))))).
Proof.
  intros Hb.
  assert (Hnd : NoDup (fst (runOps ops newStreamRegistry))).
  { rewrite runOps_handles_seq by assumption.
    apply (NoDup_fmap_2 _). apply NoDup_seq. }
  split; [now apply runOps_handles_seq|]. split; [exact Hnd|].
  intros ops1 h ops2 -> Hpresent Hin.
  rewrite runOps_app in Hnd. simpl in Hnd.
  apply NoDup_app in Hnd as (_ & Hdisj & _).
  apply runOps_present in Hpresent as [Hempty | Hassigned].
  - simpl in Hempty. rewrite lookup_empty in Hempty. now destruct Hempty.
  - exact (Hdisj h Hassigned Hin).
Qed.

Lemma Register_handles_fresh_below_wrap_witness :
  fst (runOps (ext := testExternals)
         [OpRegister (testStream 1); OpRegister (testStream 2);
          OpDeregister 0; OpRegister (testStream 3)]
         newStreamRegistry) = [0; 1; 2].
Proof.
  apply (Register_handles_fresh_below_wrap (ext := testExternals)
           [OpRegister (testStream 1); OpRegister (testStream 2);
            OpDeregister 0; OpRegister (testStream 3)]).
  vm_compute. discriminate.
Defined.

(** C1 (as stated) fails once the counter wraps: the call number [2^64 + 1]
    on a fresh registry is given handle 0 again. *)
Lemma Register_handles_repeat_after_wrap :
  ~ NoDup (fst (runOps (ext := testExternals)
                  (repeat (OpRegister (testStream 0)) (N.to_nat (two64 + 1)))
                  newStreamRegistry)).
Proof.
  intros Hnd.
  set (ops := repeat (OpRegister (testStream 0)) (N.to_nat (two64 + 1))) in *.
  assert (Hlen : length (fst (runOps ops newStreamRegistry)) = N.to_nat (two64 + 1)).
  { rewrite runOps_length. subst ops.
    generalize (N.to_nat (two64 + 1)). intros n.
    induction n as [|n IH]; simpl; congruence. }
  assert (Hlook : forall i : nat, (i < N.to_nat (two64 + 1))%nat ->
            fst (runOps ops newStreamRegistry) !! i = Some (wrap64 (N.of_nat i))).
  { intros i Hi.
    destruct (lookup_lt_is_Some_2 (fst (runOps ops newStreamRegistry)) i) as [h Hh].
    { rewrite Hlen. exact Hi. }
    rewrite Hh. f_equal.
    apply runOps_lookup in Hh; [exact Hh | reflexivity]. }
  assert (H0 : fst (runOps ops newStreamRegistry) !! 0%nat = Some 0).
  { rewrite Hlook; [reflexivity | unfold two64; lia]. }
  assert (H1 : fst (runOps ops newStreamRegistry) !! (N.to_nat two64) = Some 0).
  { rewrite Hlook; [|unfold two64; lia].
    rewrite N2Nat.id. reflexivity. }
  pose proof (NoDup_lookup _ _ _ _ Hnd H0 H1) as Heq.
  unfold two64 in Heq. lia.
Qed.

(** C7.  [Deregister(h)] twice in a row leaves the registry as one call
    does, and on a handle that is not in the table it changes nothing; the
    method is total, so there is no failure to raise. *)
Theorem Deregister_idempotent `{ext : Externals} (r : StreamRegistry) (h : uint64) :
  StreamRegistry_Deregister h (StreamRegistry_Deregister h r)
    = StreamRegistry_Deregister h r
  /\ (Streams r !! h = None -> StreamRegistry_Deregister h r = r).
Proof.
  split.
  - unfold StreamRegistry_Deregister. simpl. f_equal.
    apply delete_id, lookup_delete_eq.
  - intros Habsent. destruct r as [m n]. unfold StreamRegistry_Deregister.
    simpl in *. f_equal. now apply delete_id.
Qed.

Lemma Deregister_idempotent_witness :
  StreamRegistry_Deregister (ext := testExternals) 5 newStreamRegistry
    = newStreamRegistry.
Proof.
  apply (Deregister_idempotent (ext := testExternals) newStreamRegistry 5).
  reflexivity.
Defined.

Section StreamLifecycle.
Context `{ext : Externals}.

Lemma calls_emit e (w : P2P) : calls (emit e w) = calls w ++ [e].
Proof. reflexivity. Qed.

Lemma Streams_Deregister_calls ref h (w : P2P) :
  calls (Streams_Deregister ref h w) = calls w ++ [EvStreamsDeregister h].
Proof. now destruct ref. Qed.

Lemma Streams_Deregister_streams ref h (w : P2P) :
  p2pStreams (Streams_Deregister ref h w)
    = StreamRegistry_Deregister h (p2pStreams w).
Proof. now destruct ref. Qed.

Lemma Streams_Deregister_listeners ref h (w : P2P) :
  p2pListeners (Streams_Deregister ref h w) = p2pListeners w.
Proof. now destruct ref. Qed.

Lemma Stream_Close_calls (s : Stream) (w : P2P) :
  calls (snd (Stream_Close s w))
  = calls w ++ [EvConnClose (connId (Local s)); EvStreamClose (Remote s);
                EvStreamsDeregister (id s)].
Proof.
  unfold Stream_Close. cbn [snd].
  rewrite Streams_Deregister_calls, !calls_emit, <- !app_assoc. reflexivity.
Qed.

Lemma Stream_Reset_calls (s : Stream) (w : P2P) :
  calls (snd (Stream_Reset s w))
  = calls w ++ [EvConnClose (connId (Local s)); EvStreamReset (Remote s);
                EvStreamsDeregister (id s)].
Proof.
  unfold Stream_Reset. cbn [snd].
  rewrite Streams_Deregister_calls, !calls_emit, <- !app_assoc. reflexivity.
Qed.

(** [Close] and [Reset] differ in the call made on the overlay stream. *)
Lemma Close_Reset_distinct (s : Stream) (w : P2P) :
  calls (snd (Stream_Close s w)) <> calls (snd (Stream_Reset s w)).
Proof.
  unfold Stream_Close, Stream_Reset. simpl.
  rewrite !Streams_Deregister_calls, !calls_emit, <- !app_assoc. simpl.
  intros H. apply app_inv_head in H. discriminate.
Qed.

End StreamLifecycle.

(** C4.  [Close] closes the local connection, closes the overlay stream and
    then deregisters the stream's handle; [Reset] closes the local
    connection, resets the overlay stream and then deregisters the handle.
    Both return nil and the [Deregister] call is the last call made. *)
Theorem Stream_Close_Reset_sequence `{ext : Externals} (s : Stream) (w : P2P) :
  (fst (Stream_Close s w) = None
   /\ calls (snd (Stream_Close s w))
      = calls w ++ [EvConnClose (connId (Local s)); EvStreamClose (Remote s);
                    EvStreamsDeregister (id s)]
   /\ p2pStreams (snd (Stream_Close s w))
      = StreamRegistry_Deregister (id s) (p2pStreams w)
   /\ Streams (p2pStreams (snd (Stream_Close s w))) !! id s = None)
  /\
  (fst (Stream_Reset s w) = None
   /\ calls (snd (Stream_Reset s w))
      = calls w ++ [EvConnClose (connId (Local s)); EvStreamReset (Remote s);
                    EvStreamsDeregister (id s)]
   /\ p2pStreams (snd (Stream_Reset s w))
      = StreamRegistry_Deregister (id s) (p2pStreams w)
   /\ Streams (p2pStreams (snd (Stream_Reset s w))) !! id s = None).
Proof.
  unfold Stream_Close, Stream_Reset. simpl.
  rewrite !Streams_Deregister_calls, !Streams_Deregister_streams, !calls_emit.
  rewrite <- !app_assoc. simpl.
  repeat split; apply lookup_delete_eq.
Qed.

(** C3.  [startStreaming] starts two goroutines.  The first copies from the
    remote endpoint to the local one and then runs [Reset] whatever the copy
    returned; the second copies from the local endpoint to the remote one
    and then runs [Close] if the copy returned no error and [Reset] if it
    returned one. *)
Theorem startStreaming_terminal_actions `{ext : Externals} (s : Stream) (w : P2P) :
  exists remoteToLocal localToRemote,
    fst (startStreaming s w) = [remoteToLocal; localToRemote]
    /\ calls (snd (startStreaming s w))
       = calls w ++ [EvGoCopyRemoteToLocal (id s); EvGoCopyLocalToRemote (id s)]
    /\ copy_src remoteToLocal = RemoteEnd /\ copy_dst remoteToLocal = LocalEnd
    /\ (forall err w',
          after_copy remoteToLocal err w' = Stream_Reset s w'
          /\ calls (snd (after_copy remoteToLocal err w'))
             = calls w' ++ [EvConnClose (connId (Local s)); EvStreamReset (Remote s);
                            EvStreamsDeregister (id s)])
    /\ copy_src localToRemote = LocalEnd /\ copy_dst localToRemote = RemoteEnd
    /\ (forall w',
          after_copy localToRemote None w' = Stream_Close s w'
          /\ calls (snd (after_copy localToRemote None w'))
             = calls w' ++ [EvConnClose (connId (Local s)); EvStreamClose (Remote s);
                            EvStreamsDeregister (id s)])
    /\ (forall e w',
          after_copy localToRemote (Some e) w' = Stream_Reset s w'
          /\ calls (snd (after_copy localToRemote (Some e) w'))
             = calls w' ++ [EvConnClose (connId (Local s)); EvStreamReset (Remote s);
                            EvStreamsDeregister (id s)]).
Proof.
  eexists _, _. split; [reflexivity|].
  split; [cbn [startStreaming snd]; now rewrite !calls_emit, <- app_assoc|].
  cbn [after_copy copy_src copy_dst].
  repeat split; auto using Stream_Close_calls, Stream_Reset_calls.
Qed.

Section ForwardLocalFacts.
Context `{ext : Externals}.

Lemma bind_socket_key (l : localListener) sock :
  getListenerKey (LocalL (bind_socket l sock)) = getListenerKey (LocalL l).
Proof. reflexivity. Qed.

(** Every call of the core entry points is visible in the call log. *)
Lemma ForwardLocal_logs peer proto bindAddr listenResult (w : P2P) :
  exists k rest,
    calls (snd (ForwardLocal peer proto bindAddr listenResult w))
      = calls w ++ EvListenersLock k :: rest.
Proof.
  unfold ForwardLocal, Listeners_lock.
  destruct (ListenerRegistry_lock _ _) as [r'|e]; simpl.
  - destruct listenResult as [sock|e]; simpl;
      rewrite <- ?app_assoc; simpl; eauto.
  - eauto.
Qed.

Lemma ForwardRemote_logs proto addr (w : P2P) :
  exists k rest,
    calls (snd (ForwardRemote proto addr w)) = calls w ++ EvListenersLock k :: rest.
Proof.
  unfold ForwardRemote, Listeners_lock.
  destruct (ListenerRegistry_lock _ _) as [r'|e]; simpl;
    rewrite <- ?app_assoc; simpl; eauto.
Qed.

(** [lock] on a key that is neither in the table nor reserved. *)
Lemma lock_free (l : Listener) (r : ListenerRegistry) :
  Listeners r !! getListenerKey l = None ->
  reserved r <> Some (getListenerKey l) ->
  ListenerRegistry_lock l r
    = Ok {| Listeners := Listeners r; reserved := Some (getListenerKey l) |}.
Proof.
  intros Hfree Hres. unfold ListenerRegistry_lock. rewrite Hfree.
  now destruct (decide _).
Qed.

(** [lock] on a key that is in the table. *)
Lemma lock_taken (l : Listener) (r : ListenerRegistry) :
  is_Some (Listeners r !! getListenerKey l) ->
  ListenerRegistry_lock l r = Err "listener already registered".
Proof.
  intros [l' Hl']. unfold ListenerRegistry_lock. now rewrite Hl'.
Qed.

End ForwardLocalFacts.

(** C5.  [ForwardLocal] on candidate key [k]:
    - when [lock] fails, its error is returned, [lock] is the only call made
      (no socket is bound) and the registry is as before;
    - when [lock] succeeds and [manet.Listen] fails, the bind error is
      returned, the calls made are [lock], [Listen] and one [unlock], and the
      table of listeners is as before;
    - when both succeed, the bound listener is returned without error, it is
      in the table under [k], and the calls made are [lock], [Listen],
      [Register] and the start of the accept loop. *)
Theorem ForwardLocal_outcomes `{ext : Externals} (peer : peerID) (proto : string)
    (bindAddr : Multiaddr) (listenResult : result nat) (w : P2P) :
  let cand := candidate w peer proto bindAddr in
  let k := getListenerKey (LocalL cand) in
  let out := ForwardLocal peer proto bindAddr listenResult w in
  (forall e, ListenerRegistry_lock (LocalL cand) (p2pListeners w) = Err e ->
     fst out = Err e
     /\ calls (snd out) = calls w ++ [EvListenersLock k]
     /\ p2pListeners (snd out) = p2pListeners w)
  /\
  (forall r' e, ListenerRegistry_lock (LocalL cand) (p2pListeners w) = Ok r' ->
     listenResult = Err e ->
     fst out = Err e
     /\ calls (snd out)
        = calls w ++ [EvListenersLock k; EvListen (MultiaddrString bindAddr);
                      EvListenersUnlock]
     /\ Listeners (p2pListeners (snd out)) = Listeners (p2pListeners w)
     /\ reserved (p2pListeners (snd out)) = None)
  /\
  (forall r' sock, ListenerRegistry_lock (LocalL cand) (p2pListeners w) = Ok r' ->
     listenResult = Ok sock ->
     fst out = Ok (LocalL (bind_socket cand sock))
     /\ calls (snd out)
        = calls w ++ [EvListenersLock k; EvListen (MultiaddrString bindAddr);
                      EvListenersRegister k; EvGoAcceptConns k]
     /\ Listeners (p2pListeners (snd out)) !! k = Some (LocalL (bind_socket cand sock))
     /\ reserved (p2pListeners (snd out)) = None).
Proof.
  intros cand k out. subst out. unfold ForwardLocal, Listeners_lock.
  fold (candidate w peer proto bindAddr). fold cand.
  repeat split.
  all: try match goal with H : ListenerRegistry_lock _ _ = _ |- _ => rewrite H end.
  all: subst; simpl; rewrite <- ?app_assoc; try reflexivity.
  - unfold ListenerRegistry_lock in H. fold k in H.
    destruct (Listeners (p2pListeners w) !! k); [discriminate|].
    destruct (decide _); [discriminate|]. now inversion H.
  - apply lookup_insert_eq.
Qed.

Lemma ForwardLocal_outcomes_witness :
  let w := NewP2P (ext := testExternals) "QmSelf" in
  let addr : @Multiaddr testExternals := "/ip4/127.0.0.1/tcp/4567" in
  fst (ForwardLocal "QmPeer" "/p2p/echo" addr (Err "address in use") w)
    = Err "address in use"
  /\ fst (ForwardLocal "QmPeer" "/p2p/echo" addr (Ok 3%nat) w)
    = Ok (LocalL (bind_socket (candidate w "QmPeer" "/p2p/echo" addr) 3))
  /\ fst (ForwardLocal "QmPeer" "/p2p/echo" addr (Ok 4%nat)
            (snd (ForwardLocal "QmPeer" "/p2p/echo" addr (Ok 3%nat) w)))
    = Err "listener already registered".
Proof.
  intros w addr.
  pose proof (lock_free (ext := testExternals)
                (LocalL (candidate w "QmPeer" "/p2p/echo" addr))
                (p2pListeners w) (lookup_empty _) ltac:(discriminate)) as Hlock.
  split; [|split].
  - destruct (ForwardLocal_outcomes (ext := testExternals)
                "QmPeer" "/p2p/echo" addr (Err "address in use") w)
      as (_ & Hbind & _).
    exact (proj1 (Hbind _ "address in use" Hlock eq_refl)).
  - destruct (ForwardLocal_outcomes (ext := testExternals)
                "QmPeer" "/p2p/echo" addr (Ok 3%nat) w)
      as (_ & _ & Hok).
    exact (proj1 (Hok _ 3%nat Hlock eq_refl)).
  - destruct (ForwardLocal_outcomes (ext := testExternals)
                "QmPeer" "/p2p/echo" addr (Ok 3%nat) w)
      as (_ & _ & Hok).
    destruct (Hok _ 3%nat Hlock eq_refl) as (_ & _ & Hreg & _).
    set (w1 := snd (ForwardLocal "QmPeer" "/p2p/echo" addr (Ok 3%nat) w)) in *.
    destruct (ForwardLocal_outcomes (ext := testExternals)
                "QmPeer" "/p2p/echo" addr (Ok 4%nat) w1)
      as (Hdup & _ & _).
    apply Hdup. apply lock_taken. simpl. eexists. exact Hreg.
Defined.

Section AcceptLoopFacts.
Context `{ext : Externals}.

Lemma Streams_Register_stream (s : Stream) (w : P2P) :
  fst (Streams_Register s w) = set_id s (nextID (p2pStreams w)).
Proof. reflexivity. Qed.

Lemma Streams_Register_listeners (s : Stream) (w : P2P) :
  p2pListeners (snd (Streams_Register s w)) = p2pListeners w.
Proof. reflexivity. Qed.

Lemma dial_listeners l cr nr (w : P2P) :
  p2pListeners (snd (dial l cr nr w)) = p2pListeners w.
Proof. unfold dial. now destruct cr. Qed.

(** One iteration whose dial fails at [Host.Connect]: the accepted
    connection is closed and the function returns; the rest of the script is
    never looked at. *)
Lemma acceptConns_connect_failure l step rest (w : P2P) local e :
  acceptResult step = Ok local ->
  connectResult step = Some e ->
  acceptConns l (step :: rest) w
    = (LoopReturned, [],
       emit (EvConnClose (connId local))
         (emit (EvConnect (peer l)) (emit (EvAccept (listener l)) w))).
Proof.
  intros Ha Hc. simpl. rewrite Ha. unfold dial. now rewrite Hc.
Qed.

(** The same when the dial fails at [Host.NewStream]. *)
Lemma acceptConns_newStream_failure l step rest (w : P2P) local e :
  acceptResult step = Ok local ->
  connectResult step = None ->
  newStreamResult step = Err e ->
  acceptConns l (step :: rest) w
    = (LoopReturned, [],
       emit (EvConnClose (connId local))
         (emit (EvNewStream (peer l) (proto l))
            (emit (EvConnect (peer l)) (emit (EvAccept (listener l)) w)))).
Proof.
  intros Ha Hc Hn. simpl. rewrite Ha. unfold dial. now rewrite Hc, Hn.
Qed.

(** The accept loop never touches the table of listeners. *)
Lemma acceptConns_listeners l script : forall w : P2P,
  p2pListeners (snd (acceptConns l script w)) = p2pListeners w.
Proof.
  induction script as [|step script IH]; intros w; cbn [acceptConns];
    [reflexivity|].
  destruct (acceptResult step) as [local|e]; [|reflexivity].
  pose proof (dial_listeners l (connectResult step) (newStreamResult step)
                (emit (EvAccept (listener l)) w)) as Hd.
  destruct (dial l _ _ _) as [[remote|e] w1]; cbn [snd] in Hd;
    [|cbn [snd]; exact Hd].
  destruct (NewMultiaddr _) as [tgt|e]; [|cbn [snd]; exact Hd].
  match goal with |- context [Streams_Register ?s w1] =>
    pose proof (Streams_Register_listeners s w1) as Hr;
    destruct (Streams_Register s w1) as [stream' w2] end.
  cbn [snd] in Hr.
  cbn [startStreaming].
  match goal with |- context [acceptConns l script ?w3] =>
    specialize (IH w3); destruct (acceptConns l script w3) as [[status built] w4]
  end.
  cbn [snd] in *. rewrite IH. cbn. rewrite Hr. exact Hd.
Qed.

(** Every stream the loop builds has the parsed target address of its
    listener. *)
Lemma acceptConns_built_target l script : forall w : P2P,
  Forall (fun s : Stream =>
            NewMultiaddr (localListener_TargetAddress l) = Ok (TargetAddr s))
         (snd (fst (acceptConns l script w))).
Proof.
  induction script as [|step script IH]; intros w; cbn [acceptConns];
    [constructor|].
  destruct (acceptResult step) as [local|e]; [|constructor].
  destruct (dial l _ _ _) as [[remote|e] w1]; [|constructor].
  destruct (NewMultiaddr _) as [tgt|e] eqn:Et; [|constructor].
  match goal with |- context [Streams_Register ?s w1] =>
    pose proof (Streams_Register_stream s w1) as Hr;
    destruct (Streams_Register s w1) as [stream' w2] end.
  cbn [fst] in Hr.
  cbn [startStreaming].
  match goal with |- context [acceptConns l script ?w3] =>
    specialize (IH w3); destruct (acceptConns l script w3) as [[status built] w4]
  end.
  cbn [fst snd] in *.
  constructor; [|exact IH].
  rewrite Hr. reflexivity.
Qed.

(** The text never begins with "peer:", whatever the identity prints as. *)
Lemma TargetAddress_never_peer_colon (l : localListener) (suffix : string) :
  localListener_TargetAddress l <> ("peer:" ++ suffix)%string.
Proof. unfold localListener_TargetAddress. simpl. discriminate. Qed.

End AcceptLoopFacts.

(** C6 (as stated) fails: for the peer printed as QmPeer the listener
    reports /ipfs/QmPeer, not peer:QmPeer. *)
Lemma TargetAddress_peer_colon_refuted :
  localListener_TargetAddress (ext := testExternals)
    {| l_id := "QmSelf"; proto := "/p2p/echo";
       laddr := "/ip4/127.0.0.1/tcp/4567" : @Multiaddr testExternals;
       peer := "QmPeer"; listener := Some 3%nat |}
  <> ("peer:" ++ "QmPeer")%string.
Proof. apply TargetAddress_never_peer_colon. Qed.

(** C6 (as amended).  A local-forward listener with target peer [P] reports
    the target address "/ipfs/" followed by the printed form of [P]; the
    listener [ForwardLocal] returns for [P] reports exactly that, and it is
    the text parsed into the [TargetAddr] of every stream the accept loop
    builds. *)
Theorem TargetAddress_ipfs_prefixed `{ext : Externals} (l : localListener)
    (script : list AcceptStep) (w : P2P) (proto : string) (bindAddr : Multiaddr)
    (sock : nat) :
  localListener_TargetAddress l = ("/ipfs/" ++ Pretty (peer l))%string
  /\ Listener_TargetAddress (LocalL l) = ("/ipfs/" ++ Pretty (peer l))%string
  /\ Listener_TargetAddress
       (LocalL (bind_socket (candidate w (peer l) proto bindAddr) sock))
     = ("/ipfs/" ++ Pretty (peer l))%string
  /\ Forall (fun s : Stream =>
               NewMultiaddr ("/ipfs/" ++ Pretty (peer l))%string = Ok (TargetAddr s))
            (snd (fst (acceptConns l script w))).
Proof.
  repeat split. apply acceptConns_built_target.
Qed.

(** C2 (the code departs from the claim).  Two connections arrive at the
    listener of [testNodeForwarding] and the dial for the first fails: the
    first connection is closed and [acceptConns] returns.  [Accept] is called
    once, the second connection is never accepted, and the listener is still
    in the table with its socket open. *)
Theorem acceptConns_returns_on_dial_failure :
  let out := acceptConns echoListener dialFailureScript testNodeForwarding in
  fst (fst out) = LoopReturned
  /\ snd (fst out) = []
  /\ calls (snd out)
     = calls testNodeForwarding
       ++ [EvAccept (Some 3%nat); EvConnect "QmPeer"; EvConnClose 10]
  /\ Listeners (p2pListeners (snd out)) !! getListenerKey (LocalL echoListener)
     = Some (LocalL echoListener).
Proof.
  intros out. subst out. unfold dialFailureScript.
  erewrite (acceptConns_connect_failure (ext := testExternals)
              echoListener _ _ testNodeForwarding (testConn 10) "dial backoff");
    [|reflexivity|reflexivity].
  cbn [fst snd]. split; [reflexivity|]. split; [reflexivity|]. split.
  - rewrite !calls_emit, <- !app_assoc. reflexivity.
  - change (Listeners (p2pListeners testNodeForwarding)
              !! getListenerKey (LocalL echoListener) = Some (LocalL echoListener)).
    unfold testNodeForwarding, echoListener.
    destruct (ForwardLocal_outcomes (ext := testExternals)
                "QmPeer" "/p2p/echo" testBindAddr (Ok 3%nat) testNode)
      as (_ & _ & Hok).
    pose proof (lock_free (ext := testExternals)
                  (LocalL (candidate testNode "QmPeer" "/p2p/echo" testBindAddr))
                  (p2pListeners testNode) (lookup_empty _) ltac:(discriminate))
      as Hlock.
    destruct (Hok _ 3%nat Hlock eq_refl) as (_ & _ & Hreg & _).
    exact Hreg.
Qed.

Section ForwardCommandFacts.
Context `{ext : Externals}.

Lemma SetError_resError e (res : Response) : resError (SetError e res) = Some e.
Proof. reflexivity. Qed.

Lemma forwardRemote_rejects_overlay proto target (w : P2P) :
  HasPrefix target "/ipfs" = true ->
  forwardRemote proto target w
    = (Some "cannot forward libp2p service connections to another libp2p service"%string,
       w).
Proof. intros H. unfold forwardRemote. now rewrite H. Qed.

End ForwardCommandFacts.

(** C8.  The forward command sets an error and leaves the node untouched (no
    call is made, no registry changes)
    (1) when the listen address is "/ipfs" (a remote forward) and the target
        address begins with "/ipfs";
    (2) when the listen address begins with "/ipfs" without being "/ipfs".
    The error is the one of [p2pGetNode] if the node is unavailable, else the
    message of the check. *)
Theorem forward_rejects_overlay_addresses `{ext : Externals} (req : NodeEnv)
    (protocol listen target : string) (listenResult : result nat)
    (w : P2P) (res : Response) :
  (listen = "/ipfs"%string -> HasPrefix target "/ipfs" = true ->
   p2pForwardCmd_Run req protocol listen target listenResult w res
   = (SetError
        (match p2pGetNode req with
         | Some e => e
         | None => "cannot forward libp2p service connections to another libp2p service"%string
         end) res, w))
  /\
  (HasPrefix listen "/ipfs" = true -> listen <> "/ipfs"%string ->
   p2pForwardCmd_Run req protocol listen target listenResult w res
   = (SetError
        (match p2pGetNode req with
         | Some e => e
         | None => "only '/ipfs' is allowed as libp2p listen address"%string
         end) res, w)).
Proof.
  split.
  - intros -> Ht. unfold p2pForwardCmd_Run.
    destruct (p2pGetNode req) as [e|]; [reflexivity|].
    cbn [HasPrefix String.prefix]. simpl (String.eqb _ _).
    change (HasPrefix "/ipfs" "/ipfs") with true. cbn [negb].
    now rewrite forwardRemote_rejects_overlay.
  - intros Hl Hne. unfold p2pForwardCmd_Run.
    destruct (p2pGetNode req) as [e|]; [reflexivity|].
    rewrite Hl. apply String.eqb_neq in Hne. now rewrite Hne.
Qed.

Lemma forward_rejects_overlay_addresses_witness :
  let online := {| getNodeErr := None; configErr := None;
                   Libp2pStreamMounting := true; OnlineMode := true |} in
  resError (fst (p2pForwardCmd_Run (ext := testExternals) online
                   "echo" "/ipfs" "/ipfs/QmOther" (Ok 3%nat) testNode newResponse))
    = Some "cannot forward libp2p service connections to another libp2p service"%string
  /\ resError (fst (p2pForwardCmd_Run (ext := testExternals) online
                      "echo" "/ipfs/QmSelf" "/ip4/127.0.0.1/tcp/80" (Ok 3%nat)
                      testNode newResponse))
    = Some "only '/ipfs' is allowed as libp2p listen address"%string.
Proof.
  intros online. split.
  - rewrite (proj1 (forward_rejects_overlay_addresses (ext := testExternals)
                      online "echo" "/ipfs" "/ipfs/QmOther" (Ok 3%nat)
                      testNode newResponse) eq_refl eq_refl).
    reflexivity.
  - rewrite (proj2 (forward_rejects_overlay_addresses (ext := testExternals)
                      online "echo" "/ipfs/QmSelf" "/ip4/127.0.0.1/tcp/80"
                      (Ok 3%nat) testNode newResponse) eq_refl
                   ltac:(discriminate)).
    reflexivity.
Defined.

Section CloseCommandFacts.
Context `{ext : Externals}.

(** With the protocol option given, every call of the closure prepends the
    prefix once more to the captured variable. *)
Lemma closeMatch_proto_grows opts s proto (l : Listener) :
  optProtocol opts = Some s ->
  snd (closeMatch opts proto l) = ("/p2p/" ++ proto)%string.
Proof. intros H. unfold closeMatch. now rewrite H. Qed.



End CloseCommandFacts.




(** C10 (the code departs from the claim).  Listeners are opened with
    protocols a and b, so they are registered under /p2p/a and /p2p/b.
    [close -p b] visiting a's listener first compares b's listener against
    /p2p//p2p/b: nothing is closed and b's listener stays registered.  When
    b's listener is visited first it is closed. *)
Theorem close_by_protocol_depends_on_visit_order :
  Listener_Protocol (ext := testExternals) <$> (Listeners (p2pListeners twoListenersNode) !! keyA)
    = Some "/p2p/a"%string
  /\ Listener_Protocol (ext := testExternals) <$> (Listeners (p2pListeners twoListenersNode) !! keyB)
    = Some "/p2p/b"%string
  /\ fst (p2pCloseCmd_Run (ext := testExternals) onlineNode (closeByProtocol "b")
            [keyA; keyB] twoListenersNode newResponse)
     = {| resError := None; resOutput := OutInt 0 |}
  /\ Listener_Protocol (ext := testExternals) <$>
       (Listeners (p2pListeners
          (snd (p2pCloseCmd_Run (ext := testExternals) onlineNode
                  (closeByProtocol "b") [keyA; keyB] twoListenersNode newResponse)))
        !! keyB)
     = Some "/p2p/b"%string
  /\ fst (p2pCloseCmd_Run (ext := testExternals) onlineNode (closeByProtocol "b")
            [keyB; keyA] twoListenersNode newResponse)
     = {| resError := None; resOutput := OutInt 1 |}.
Proof. vm_compute. repeat split. Qed.

(** * Further properties of the stream registry and of a stream's life cycle *)

Section StreamRegistryMore.
Context `{ext : Externals}.

Lemma incr64_lt n : incr64 n < two64.
Proof. apply wrap64_lt. Qed.

Lemma runOps_nextID ops : forall r : StreamRegistry,
  nextID r < two64 ->
  nextID (snd (runOps ops r)) = wrap64 (nextID r + N.of_nat (registrations ops)).
Proof.
  induction ops as [|[s|d] ops IH]; intros r Hlt; cbn [runOps registrations].
  - cbn [snd]. rewrite N.add_0_r. symmetry. now apply wrap64_small.
  - specialize (IH (snd (StreamRegistry_Register s r)) (incr64_lt _)).
    cbn [StreamRegistry_Register snd] in IH |- *.
    destruct (runOps ops _) as [hs r'']. cbn [snd] in *. rewrite IH.
    cbn [nextID]. unfold incr64, wrap64.
    rewrite N.Div0.add_mod_idemp_l. f_equal. lia.
  - apply (IH (StreamRegistry_Deregister d r)). exact Hlt.
Qed.


Lemma Stream_Close_streams (s : Stream) (w : P2P) :
  p2pStreams (snd (Stream_Close s w))
  = StreamRegistry_Deregister (id s) (p2pStreams w).
Proof. unfold Stream_Close. cbn [snd]. now rewrite Streams_Deregister_streams. Qed.

Lemma Stream_Reset_streams (s : Stream) (w : P2P) :
  p2pStreams (snd (Stream_Reset s w))
  = StreamRegistry_Deregister (id s) (p2pStreams w).
Proof. unfold Stream_Reset. cbn [snd]. now rewrite Streams_Deregister_streams. Qed.

Lemma Deregister_twice h (r : StreamRegistry) :
  StreamRegistry_Deregister h (StreamRegistry_Deregister h r)
  = StreamRegistry_Deregister h r.
Proof.
  unfold StreamRegistry_Deregister. cbn. f_equal.
  apply delete_id, lookup_delete_eq.
Qed.

End StreamRegistryMore.

(** X1.  After [Register(s)] the table maps the handle written into the
    stream (the old counter value) to that stream, whose other fields are
    those of [s]; every other handle is mapped as before. *)
Theorem Register_then_lookup `{ext : Externals} (s : Stream) (r : StreamRegistry) :
  let s' := fst (StreamRegistry_Register s r) in
  let r' := snd (StreamRegistry_Register s r) in
  Streams r' !! id s' = Some s'
  /\ id s' = nextID r
  /\ (Protocol s', OriginAddr s', TargetAddr s', Local s', Remote s', Registry s')
     = (Protocol s, OriginAddr s, TargetAddr s, Local s, Remote s, Registry s)
  /\ (forall h, h <> id s' -> Streams r' !! h = Streams r !! h).
Proof.
  cbn. split; [apply lookup_insert_eq|]. split; [reflexivity|].
  split; [reflexivity|]. intros h Hne. now apply lookup_insert_ne.
Qed.



(** X3.  On a registry grown from a fresh one by fewer than [2^64]
    registrations, the counter equals the number of registrations and its
    slot is free: the next [Register] adds an entry and replaces none. *)
Theorem Register_slot_free_below_wrap `{ext : Externals}
    (ops : list RegistryOp) (s : Stream) :
  N.of_nat (registrations ops) < two64 ->
  let r := snd (runOps ops newStreamRegistry) in
  nextID r = N.of_nat (registrations ops)
  /\ Streams r !! nextID r = None
  /\ size (Streams (snd (StreamRegistry_Register s r))) = S (size (Streams r)).
Proof.
  intros Hb r.
  assert (Hn : nextID r = N.of_nat (registrations ops)).
  { subst r. rewrite runOps_nextID by reflexivity.
    cbn [newStreamRegistry nextID]. rewrite N.add_0_l. now apply wrap64_small. }
  assert (Hfree : Streams r !! nextID r = None).
  { destruct (Streams r !! nextID r) as [s0|] eqn:Hl; [exfalso|reflexivity].
    assert (Hs : is_Some (Streams (snd (runOps ops newStreamRegistry)) !! nextID r)).
    { fold r. rewrite Hl. eauto. }
    destruct (runOps_present ops newStreamRegistry (nextID r) Hs) as [He|Hin].
    - cbn in He. rewrite lookup_empty in He. now destruct He.
    - rewrite runOps_handles_seq in Hin by lia.
      apply list_elem_of_fmap in Hin as (i & Hi & Hseq).
      apply elem_of_seq in Hseq. rewrite Hn in Hi. lia. }
  split; [exact Hn|]. split; [exact Hfree|].
  cbn [StreamRegistry_Register snd Streams].
  now apply map_size_insert_None.
Qed.

Lemma Register_slot_free_below_wrap_witness :
  nextID (ext := testExternals)
    (snd (runOps [OpRegister (testStream 1); OpDeregister 0;
                  OpRegister (testStream 2)] newStreamRegistry)) = 2.
Proof.
  apply (Register_slot_free_below_wrap (ext := testExternals)
           [OpRegister (testStream 1); OpDeregister 0; OpRegister (testStream 2)]
           (testStream 3)).
  vm_compute. reflexivity.
Defined.

(** X4.  When the counter's slot is free, [Register] followed by
    [Deregister] of the handle just assigned gives back the table as it
    was; the counter has moved on by one (with wrap-around). *)
Theorem Register_then_Deregister `{ext : Externals} (s : Stream) (r : StreamRegistry) :
  Streams r !! nextID r = None ->
  let s' := fst (StreamRegistry_Register s r) in
  let r' := StreamRegistry_Deregister (id s') (snd (StreamRegistry_Register s r)) in
  Streams r' = Streams r /\ nextID r' = incr64 (nextID r).
Proof.
  intros Hfree. cbn. split; [|reflexivity]. now apply delete_insert_id.
Qed.

Lemma Register_then_Deregister_witness :
  nextID (ext := testExternals)
    (StreamRegistry_Deregister 0
       (snd (StreamRegistry_Register (testStream 1) newStreamRegistry))) = 1.
Proof.
  apply (Register_then_Deregister (ext := testExternals)
           (testStream 1) newStreamRegistry).
  apply lookup_empty.
Defined.

(** X5.  [Close] and [Reset] of a stream leave every other handle of the
    table, the counter, the listeners and the node's identity as they
    were. *)
Theorem Stream_Close_Reset_frame `{ext : Externals} (s : Stream) (w : P2P) :
  let after w' :=
    (forall h, h <> id s ->
       Streams (p2pStreams w') !! h = Streams (p2pStreams w) !! h)
    /\ nextID (p2pStreams w') = nextID (p2pStreams w)
    /\ p2pListeners w' = p2pListeners w
    /\ identity w' = identity w in
  after (snd (Stream_Close s w)) /\ after (snd (Stream_Reset s w)).
Proof.
  cbn zeta. unfold Stream_Close, Stream_Reset. cbn [snd].
  rewrite !Streams_Deregister_streams, !Streams_Deregister_listeners.
  destruct (Registry s). cbn.
  repeat split; intros h Hne; apply lookup_delete_ne; congruence.
Qed.

(** X6.  When the two goroutines of [startStreaming] finish one after the
    other, in either order and whatever their copies returned, the handle is
    gone from the table, which is otherwise as one [Deregister] leaves it;
    the local connection has been closed twice and the overlay stream has
    been reset by the remote-to-local goroutine, also when both copies ended
    without error. *)
Theorem relay_completion `{ext : Externals} (s : Stream) (w : P2P)
    (errA errB : option error) :
  let remoteToLocal := nth 0 (fst (startStreaming s w))
                         {| copy_dst := LocalEnd; copy_src := LocalEnd;
                            after_copy := fun _ w' => (None, w') |} in
  let localToRemote := nth 1 (fst (startStreaming s w))
                         {| copy_dst := LocalEnd; copy_src := LocalEnd;
                            after_copy := fun _ w' => (None, w') |} in
  let w0 := snd (startStreaming s w) in
  let endB := match errB with
              | Some _ => EvStreamReset (Remote s)
              | None => EvStreamClose (Remote s)
              end in
  let wAB := snd (after_copy localToRemote errB
                    (snd (after_copy remoteToLocal errA w0))) in
  let wBA := snd (after_copy remoteToLocal errA
                    (snd (after_copy localToRemote errB w0))) in
  p2pStreams wAB = StreamRegistry_Deregister (id s) (p2pStreams w)
  /\ p2pStreams wBA = StreamRegistry_Deregister (id s) (p2pStreams w)
  /\ calls wAB
     = calls w0 ++ [EvConnClose (connId (Local s)); EvStreamReset (Remote s);
                    EvStreamsDeregister (id s);
                    EvConnClose (connId (Local s)); endB;
                    EvStreamsDeregister (id s)]
  /\ calls wBA
     = calls w0 ++ [EvConnClose (connId (Local s)); endB;
                    EvStreamsDeregister (id s);
                    EvConnClose (connId (Local s)); EvStreamReset (Remote s);
                    EvStreamsDeregister (id s)].
Proof.
  cbn zeta. cbn [startStreaming fst snd nth after_copy].
  destruct errB as [e|];
    repeat first [ rewrite Stream_Close_streams | rewrite Stream_Reset_streams
                 | rewrite Stream_Close_calls | rewrite Stream_Reset_calls
                 | rewrite Deregister_twice ];
    cbn [emit p2pStreams]; rewrite <- ?app_assoc; repeat split.
Qed.

(** * Further properties of the accept loop and of [ForwardLocal] *)

Section AcceptLoopMore.
Context `{ext : Externals}.

Lemma dial_streams l cr nr (w : P2P) :
  p2pStreams (snd (dial l cr nr w)) = p2pStreams w.
Proof. unfold dial. now destruct cr. Qed.







End AcceptLoopMore.



(** X8.  When the listener's target address does not parse, the accept loop
    never builds or registers a stream, and it returns during the first
    iteration whatever that iteration's results are. *)
Theorem acceptConns_unparsable_target `{ext : Externals}
    (l : localListener) (e : error) (script : list AcceptStep) (w : P2P) :
  NewMultiaddr (localListener_TargetAddress l) = Err e ->
  snd (fst (acceptConns l script w)) = []
  /\ p2pStreams (snd (acceptConns l script w)) = p2pStreams w
  /\ (script <> [] -> fst (fst (acceptConns l script w)) = LoopReturned).
Proof.
  intros Ht. destruct script as [|step script]; [now repeat split|].
  cbn [acceptConns].
  destruct (acceptResult step) as [local|e0]; [|now repeat split].
  pose proof (dial_streams l (connectResult step) (newStreamResult step)
                (emit (EvAccept (listener l)) w)) as Hd.
  destruct (dial l _ _ _) as [[remote|e0] w1]; rewrite ?Ht;
    cbn [fst snd emit p2pStreams] in *; now repeat split.
Qed.

Lemma acceptConns_unparsable_target_witness :
  let nothingParses : Externals :=
    {| Multiaddr := string; NewMultiaddr := fun _ => Err "invalid multiaddr";
       MultiaddrString := fun a => a; Pretty := fun p => p;
       ParsePeerParam := fun _ => Err "invalid peer address";
       ParseUint := testParseUint; errNotOnline := "offline" |} in
  snd (fst (acceptConns (ext := nothingParses)
              {| l_id := "QmSelf"; proto := "/p2p/echo"; laddr := "/ip4/127.0.0.1/tcp/1";
                 peer := "QmPeer"; listener := Some 3%nat |}
              [ {| acceptResult := Ok {| connId := 10; RemoteMultiaddr := "/ip4/127.0.0.1/tcp/2" |};
                   connectResult := None; newStreamResult := Ok 21%nat |} ]
              (NewP2P "QmSelf"))) = [].
Proof.
  intros nothingParses.
  apply (acceptConns_unparsable_target (ext := nothingParses) _ "invalid multiaddr").
  reflexivity.
Defined.



(** X10.  The accept loop never changes the table of listeners or the
    reservation: a loop that has returned leaves its listener registered. *)
Theorem acceptConns_keeps_listener_table `{ext : Externals}
    (l : localListener) (script : list AcceptStep) (w : P2P) :
  p2pListeners (snd (acceptConns l script w)) = p2pListeners w.
Proof. apply acceptConns_listeners. Qed.

(** X11.  Whenever [ForwardLocal] returns a listener, the socket was bound
    and the listener reports the protocol it was given, the text of the bind
    address and "/ipfs/" followed by the printed target peer; whenever it
    returns an error, no [Register] call was made and no accept loop was
    started. *)
Theorem ForwardLocal_result_shape `{ext : Externals} (peer : peerID) (proto : string)
    (bindAddr : Multiaddr) (listenResult : result nat) (w : P2P) :
  let out := ForwardLocal peer proto bindAddr listenResult w in
  (forall l, fst out = Ok l ->
     exists sock,
       listenResult = Ok sock
       /\ l = LocalL (bind_socket (candidate w peer proto bindAddr) sock)
       /\ Listener_Protocol l = proto
       /\ Listener_ListenAddress l = MultiaddrString bindAddr
       /\ Listener_TargetAddress l = ("/ipfs/" ++ Pretty peer)%string)
  /\
  (forall e, fst out = Err e ->
     exists added,
       calls (snd out) = calls w ++ added
       /\ (forall k, (EvListenersRegister k ∉ added)
                     /\ (EvGoAcceptConns k ∉ added))).
Proof.
  cbn zeta. unfold ForwardLocal, Listeners_lock.
  fold (candidate w peer proto bindAddr).
  destruct (ListenerRegistry_lock _ _) as [r'|e0]; cbn [fst snd].
  - destruct listenResult as [sock|e0]; cbn [fst snd]; split.
    + intros l Hl. inversion Hl; subst. exists sock. now repeat split.
    + intros e He. discriminate He.
    + intros l Hl. discriminate Hl.
    + intros e He.
      exists [EvListenersLock (getListenerKey (LocalL (candidate w peer proto bindAddr)));
              EvListen (MultiaddrString bindAddr); EvListenersUnlock].
      split; [cbn; now rewrite <- !app_assoc|].
      intros k. split; intros Hin;
        repeat (apply elem_of_cons in Hin as [Hin|Hin]; [discriminate Hin|]);
        now apply elem_of_nil in Hin.
  - split.
    + intros l Hl. discriminate Hl.
    + intros e He.
      exists [EvListenersLock (getListenerKey (LocalL (candidate w peer proto bindAddr)))].
      split; [reflexivity|].
      intros k. split; intros Hin;
        repeat (apply elem_of_cons in Hin as [Hin|Hin]; [discriminate Hin|]);
        now apply elem_of_nil in Hin.
Qed.

Lemma ForwardLocal_result_shape_witness :
  exists sock : nat,
    @Ok nat 3%nat = Ok sock
    /\ LocalL echoListener
       = LocalL (bind_socket (candidate testNode "QmPeer" "/p2p/echo" testBindAddr) sock)
    /\ Listener_Protocol (LocalL echoListener) = "/p2p/echo"%string
    /\ Listener_ListenAddress (LocalL echoListener) = MultiaddrString testBindAddr
    /\ Listener_TargetAddress (LocalL echoListener) = "/ipfs/QmPeer"%string.
Proof.
  apply (proj1 (ForwardLocal_result_shape (ext := testExternals)
                  "QmPeer" "/p2p/echo" testBindAddr (Ok 3%nat) testNode)
           (LocalL echoListener)).
  reflexivity.
Defined.

(** * Further properties of the commands *)

(** X12.  [p2pGetNode] returns the node exactly when the node and its
    configuration can be read, stream mounting is enabled and the node is
    online.  Otherwise it returns the first of: the node error, the
    configuration error, "libp2p stream mounting not enabled", the not-online
    error. *)
Theorem p2pGetNode_gate `{ext : Externals} (req : NodeEnv) :
  (p2pGetNode req = None <->
     getNodeErr req = None /\ configErr req = None
     /\ Libp2pStreamMounting req = true /\ OnlineMode req = true)
  /\ (forall e, getNodeErr req = Some e -> p2pGetNode req = Some e)
  /\ (forall e, getNodeErr req = None -> configErr req = Some e ->
        p2pGetNode req = Some e)
  /\ (getNodeErr req = None -> configErr req = None ->
      Libp2pStreamMounting req = false ->
      p2pGetNode req = Some "libp2p stream mounting not enabled"%string)
  /\ (getNodeErr req = None -> configErr req = None ->
      Libp2pStreamMounting req = true -> OnlineMode req = false ->
      p2pGetNode req = Some errNotOnline).
Proof.
  unfold p2pGetNode.
  destruct (getNodeErr req) as [e1|], (configErr req) as [e2|],
    (Libp2pStreamMounting req), (OnlineMode req); cbn;
    repeat split; intros; try congruence; intuition congruence.
Qed.

Lemma p2pGetNode_gate_witness :
  p2pGetNode (ext := testExternals)
    {| getNodeErr := None; configErr := None;
       Libp2pStreamMounting := false; OnlineMode := true |}
  = Some "libp2p stream mounting not enabled"%string.
Proof.
  apply (p2pGetNode_gate (ext := testExternals)); reflexivity.
Defined.

Section CommandFactsMore.
Context `{ext : Externals}.
Variable FormatUint : uint64 -> string.

Lemma Listener_Close_listeners (l : Listener) (w : P2P) :
  p2pListeners (snd (Listener_Close l w))
  = ListenerRegistry_Deregister (getListenerKey l) (p2pListeners w).
Proof. now destruct l. Qed.

Lemma Listener_Close_calls (l : Listener) (w : P2P) :
  exists e, calls (snd (Listener_Close l w))
            = calls w ++ [e; EvListenersDeregister (getListenerKey l)]
            /\ is_ListenersDeregister e = false.
Proof.
  destruct l as [l|l]; cbn; rewrite <- app_assoc; eexists; split;
    reflexivity.
Qed.

(** The count grows by one for every [Deregister] call logged. *)
Lemma closeListeners_counts opts order : forall proto closed (w : P2P),
  exists added,
    calls (snd (closeListeners opts order proto closed w)) = calls w ++ added
    /\ fst (closeListeners opts order proto closed w)
       = closed + N.of_nat (length (List.filter is_ListenersDeregister added)).
Proof.
  induction order as [|k order IH]; intros proto closed w; cbn [closeListeners].
  - exists []. cbn. rewrite app_nil_r, N.add_0_r. now split.
  - destruct (Listeners (p2pListeners w) !! k) as [l|]; [|apply IH].
    destruct (closeMatch opts proto l) as [out proto'].
    destruct out; cbn [negb]; [|apply IH].
    destruct (Listener_Close_calls l w) as (e & Hc & He).
    destruct (Listener_Close l w) as [r w'] eqn:Hclose. cbn [snd] in Hc.
    destruct (IH proto' (closed + 1) w') as (added & Hcalls & Hcount).
    exists ([e; EvListenersDeregister (getListenerKey l)] ++ added).
    rewrite Hcalls, Hc, Hcount, <- app_assoc. split; [reflexivity|].
    rewrite List.filter_app, length_app. cbn [List.filter].
    rewrite He. cbn [is_ListenersDeregister length]. lia.
Qed.

(** Without the protocol option the verdict of the closure does not depend
    on the captured variable. *)
Lemma closeMatch_without_protocol opts proto1 proto2 (l : Listener) :
  optProtocol opts = None ->
  fst (closeMatch opts proto1 l) = fst (closeMatch opts proto2 l).
Proof. intros Hp. unfold closeMatch. rewrite Hp. reflexivity. Qed.

Lemma closeListeners_without_protocol opts order :
  optProtocol opts = None ->
  forall proto1 proto2 closed (w : P2P),
    closeListeners opts order proto1 closed w
    = closeListeners opts order proto2 closed w.
Proof.
  intros Hp. induction order as [|k order IH]; intros proto1 proto2 closed w;
    cbn [closeListeners]; [reflexivity|].
  destruct (Listeners (p2pListeners w) !! k) as [l|]; [|apply IH].
  pose proof (closeMatch_without_protocol opts proto1 proto2 l Hp) as Hm.
  destruct (closeMatch opts proto1 l) as [out1 p1'].
  destruct (closeMatch opts proto2 l) as [out2 p2']. cbn [fst] in Hm. subst out2.
  destruct out1; cbn [negb]; [|apply IH].
  destruct (Listener_Close l w) as [r w']. apply IH.
Qed.

Lemma deregister_keeps_own_key k (r : ListenerRegistry) :
  listeners_under_own_key r ->
  listeners_under_own_key (ListenerRegistry_Deregister k r).
Proof.
  intros Hinv k' l Hl. cbn in Hl. apply lookup_delete_Some in Hl as [_ Hl].
  now apply Hinv.
Qed.

(** [close --all]: what the loop does to the table. *)
Lemma closeListeners_all opts order :
  optAll opts = true ->
  forall proto closed (w : P2P),
    listeners_under_own_key (p2pListeners w) ->
    NoDup order ->
    (forall k, k ∈ order -> is_Some (Listeners (p2pListeners w) !! k)) ->
    let out := closeListeners opts order proto closed w in
    fst out = closed + N.of_nat (length order)
    /\ (forall k, k ∈ order -> Listeners (p2pListeners (snd out)) !! k = None)
    /\ (forall k, k ∉ order ->
          Listeners (p2pListeners (snd out)) !! k = Listeners (p2pListeners w) !! k).
Proof.
  intros Hall. induction order as [|k order IH];
    intros proto closed w Hinv Hnd Hpres; cbn zeta; cbn [closeListeners].
  - cbn. rewrite N.add_0_r. repeat split; auto.
    intros k Hk. now apply elem_of_nil in Hk.
  - destruct (Hpres k ltac:(left)) as [l Hl]. rewrite Hl.
    assert (Hout : fst (closeMatch opts proto l) = true).
    { unfold closeMatch. cbn [fst]. rewrite Hall. apply orb_true_r. }
    destruct (closeMatch opts proto l) as [out proto']. cbn [fst] in Hout.
    subst out. cbn [negb].
    pose proof (Listener_Close_listeners l w) as Hreg.
    destruct (Listener_Close l w) as [r w']. cbn [snd] in Hreg.
    rewrite (Hinv k l Hl) in Hreg.
    apply NoDup_cons in Hnd as [Hnotin Hnd].
    assert (Hinv' : listeners_under_own_key (p2pListeners w')).
    { rewrite Hreg. now apply deregister_keeps_own_key. }
    assert (Hpres' : forall k', k' ∈ order ->
              is_Some (Listeners (p2pListeners w') !! k')).
    { intros k' Hk'. rewrite Hreg. cbn.
      rewrite lookup_delete_ne by (intros ->; contradiction).
      apply Hpres. now right. }
    destruct (IH proto' (closed + 1) w' Hinv' Hnd Hpres') as (Hc & Hgone & Hkeep).
    split; [rewrite Hc; cbn [length]; lia|]. split.
    + intros k' Hk'. apply elem_of_cons in Hk' as [->|Hk']; [|now apply Hgone].
      rewrite Hkeep by assumption. rewrite Hreg. cbn. apply lookup_delete_eq.
    + intros k' Hk'. apply not_elem_of_cons in Hk' as [Hne Hk'].
      rewrite Hkeep by assumption. rewrite Hreg. cbn.
      now apply lookup_delete_ne.
Qed.

Lemma reset_keeps_handles (s : Stream) (w : P2P) :
  handles_match_keys (p2pStreams w) ->
  handles_match_keys (p2pStreams (snd (Stream_Reset s w))).
Proof.
  intros Hinv h s0 Hh. rewrite Stream_Reset_streams in Hh. cbn in Hh.
  apply lookup_delete_Some in Hh as [_ Hh]. now apply Hinv.
Qed.

(** [stream close --all]: what the loop does to the table. *)
Lemma closeStreams_all order : forall (w : P2P) h0,
  handles_match_keys (p2pStreams w) ->
  let w' := closeStreams true h0 order w in
  (forall k, k ∈ order -> Streams (p2pStreams w') !! k = None)
  /\ (forall k, k ∉ order ->
        Streams (p2pStreams w') !! k = Streams (p2pStreams w) !! k)
  /\ p2pListeners w' = p2pListeners w.
Proof.
  induction order as [|i order IH]; intros w h0 Hinv; cbn zeta;
    cbn [closeStreams].
  - repeat split; auto. intros k Hk. now apply elem_of_nil in Hk.
  - destruct (Streams (p2pStreams w) !! i) as [s|] eqn:Hi.
    + cbn [negb andb].
      pose proof (Stream_Reset_streams s w) as Hreg.
      pose proof (reset_keeps_handles s w Hinv) as Hinv'.
      assert (Hl : p2pListeners (snd (Stream_Reset s w)) = p2pListeners w).
      { unfold Stream_Reset. cbn [snd]. now rewrite Streams_Deregister_listeners. }
      destruct (Stream_Reset s w) as [r w1]. cbn [snd] in *.
      rewrite (Hinv i s Hi) in Hreg.
      destruct (IH w1 h0 Hinv') as (Hgone & Hkeep & Hlis).
      split; [|split].
      * intros k Hk. destruct (decide (k ∈ order)) as [Hin|Hnin];
          [now apply Hgone|].
        apply elem_of_cons in Hk as [->|Hk]; [|contradiction].
        rewrite Hkeep by assumption. rewrite Hreg. cbn. apply lookup_delete_eq.
      * intros k Hk. apply not_elem_of_cons in Hk as [Hne Hk].
        rewrite Hkeep by assumption. rewrite Hreg. cbn.
        now apply lookup_delete_ne.
      * now rewrite Hlis.
    + destruct (IH w h0 Hinv) as (Hgone & Hkeep & Hlis).
      split; [|split]; [| |exact Hlis].
      * intros k Hk. destruct (decide (k ∈ order)) as [Hin|Hnin];
          [now apply Hgone|].
        apply elem_of_cons in Hk as [->|Hk]; [|contradiction].
        now rewrite Hkeep.
      * intros k Hk. apply not_elem_of_cons in Hk as [Hne Hk]. now apply Hkeep.
Qed.

(** [stream close <id>] on a handle of the table the range visits. *)
Lemma closeStreams_present h s order : forall w : P2P,
  Streams (p2pStreams w) !! h = Some s ->
  h ∈ order ->
  closeStreams false h order w = snd (Stream_Reset s w).
Proof.
  induction order as [|i order IH]; intros w Hs Hin; cbn [closeStreams].
  - now apply elem_of_nil in Hin.
  - destruct (N.eqb_spec h i) as [<-|Hne].
    + rewrite Hs. cbn [negb andb]. now destruct (Stream_Reset s w).
    + apply elem_of_cons in Hin as [->|Hin]; [contradiction|].
      destruct (Streams (p2pStreams w) !! i); cbn [negb andb]; now apply IH.
Qed.

Lemma lsListeners_length order (w : P2P) :
  (forall k, k ∈ order -> is_Some (Listeners (p2pListeners w) !! k)) ->
  length (lsListeners order w) = length order.
Proof.
  induction order as [|k order IH]; intros Hp; cbn [lsListeners length];
    [reflexivity|].
  destruct (Hp k ltac:(left)) as [l ->]. cbn [length]. f_equal.
  apply IH. intros k' Hk'. apply Hp. now right.
Qed.

Lemma lsStreams_length order (w : P2P) :
  (forall k, k ∈ order -> is_Some (Streams (p2pStreams w) !! k)) ->
  length (lsStreams FormatUint order w) = length order.
Proof.
  induction order as [|k order IH]; intros Hp; cbn [lsStreams length];
    [reflexivity|].
  destruct (Hp k ltac:(left)) as [l ->]. cbn [length]. f_equal.
  apply IH. intros k' Hk'. apply Hp. now right.
Qed.

Lemma lsListeners_empty order (w : P2P) :
  Listeners (p2pListeners w) = ∅ -> lsListeners order w = [].
Proof.
  intros He. induction order as [|k order IH]; cbn [lsListeners];
    [reflexivity|]. now rewrite He, lookup_empty.
Qed.

Lemma lsStreams_empty order (w : P2P) :
  Streams (p2pStreams w) = ∅ -> lsStreams FormatUint order w = [].
Proof.
  intros He. induction order as [|k order IH]; cbn [lsStreams];
    [reflexivity|]. now rewrite He, lookup_empty.
Qed.

End CommandFactsMore.

(** X13.  When [p2pGetNode] fails, each of the five commands sets exactly
    that error and does nothing else: the node is untouched, the forward
    command sets no output, the two listing commands set no output, and the
    two close commands have only reset the output to nil. *)
Theorem commands_need_the_node `{ext : Externals} (FormatUint : uint64 -> string)
    (req : NodeEnv) (e : error) (w : P2P) (res : Response) :
  p2pGetNode req = Some e ->
  (forall protocol listen target listenResult,
     p2pForwardCmd_Run req protocol listen target listenResult w res
     = (SetError e res, w))
  /\ (forall opts order,
        p2pCloseCmd_Run req opts order w res
        = (SetError e (SetOutput OutNil res), w))
  /\ (forall closeAll args order,
        p2pStreamCloseCmd_Run req closeAll args order w res
        = (SetError e (SetOutput OutNil res), w))
  /\ (forall order,
        p2pLsCmd_Run req order w = {| lrError := Some e; lrOutput := None |})
  /\ (forall order,
        p2pStreamLsCmd_Run FormatUint req order w
        = {| lrError := Some e; lrOutput := None |}).
Proof.
  intros He.
  unfold p2pForwardCmd_Run, p2pCloseCmd_Run, p2pStreamCloseCmd_Run,
    p2pLsCmd_Run, p2pStreamLsCmd_Run.
  rewrite He. repeat split.
Qed.

Lemma commands_need_the_node_witness :
  p2pLsCmd_Run (ext := testExternals)
    {| getNodeErr := None; configErr := None;
       Libp2pStreamMounting := true; OnlineMode := false |}
    [keyA; keyB] twoListenersNode
  = {| lrError := Some "this command must be run in online mode"%string;
       lrOutput := None |}.
Proof.
  apply (commands_need_the_node (ext := testExternals) (fun _ => EmptyString)
           _ _ twoListenersNode newResponse).
  reflexivity.
Defined.

(** X14.  With the node available, the forward command checks the addresses
    before it touches the node: a listen address that does not parse, a
    target peer that does not parse (local forward), or a target address
    that does not parse (remote forward) sets the parser's error and leaves
    the node and the call log as they were. *)
Theorem forward_validates_addresses `{ext : Externals} (req : NodeEnv)
    (protocol listen target : string) (listenResult : result nat)
    (w : P2P) (res : Response) (e : error) :
  p2pGetNode req = None ->
  (HasPrefix listen "/ipfs" = false -> NewMultiaddr listen = Err e ->
   p2pForwardCmd_Run req protocol listen target listenResult w res
   = (SetError e res, w))
  /\ (forall bindAddr,
        HasPrefix listen "/ipfs" = false -> NewMultiaddr listen = Ok bindAddr ->
        ParsePeerParam target = Err e ->
        p2pForwardCmd_Run req protocol listen target listenResult w res
        = (SetError e res, w))
  /\ (listen = "/ipfs"%string -> HasPrefix target "/ipfs" = false ->
      NewMultiaddr target = Err e ->
      p2pForwardCmd_Run req protocol listen target listenResult w res
      = (SetError e res, w)).
Proof.
  intros Hnode. unfold p2pForwardCmd_Run. rewrite Hnode. repeat split.
  - intros Hl Hm. rewrite Hl. unfold forwardLocal. now rewrite Hm.
  - intros bindAddr Hl Hm Hp. rewrite Hl. unfold forwardLocal.
    now rewrite Hm, Hp.
  - intros -> Ht Hm. change (HasPrefix "/ipfs" "/ipfs") with true.
    change (String.eqb "/ipfs" "/ipfs") with true. cbn [negb].
    unfold forwardRemote. now rewrite Ht, Hm.
Qed.

Lemma forward_validates_addresses_witness :
  p2pForwardCmd_Run (ext := testExternals) onlineNode "echo"
    "127.0.0.1:4567" "/ipfs/QmPeer" (Ok 3%nat) testNode newResponse
  = (SetError "invalid multiaddr" newResponse, testNode).
Proof.
  apply (proj1 (forward_validates_addresses (ext := testExternals) onlineNode
                  "echo" "127.0.0.1:4567" "/ipfs/QmPeer" (Ok 3%nat) testNode
                  newResponse "invalid multiaddr" eq_refl)); reflexivity.
Defined.

(** X15.  A local forward whose addresses parse hands ForwardLocal the
    protocol "/p2p/" + protocol, the parsed bind address and the parsed
    peer, and reports ForwardLocal's error unchanged (nil output when there
    is none).  When the target carried a network address, it is added to the
    peerstore before ForwardLocal is called, and it stays added when
    ForwardLocal fails. *)
Theorem forward_local_core_call `{ext : Externals} (req : NodeEnv)
    (protocol listen target : string) (listenResult : result nat)
    (w : P2P) (res : Response) (bindAddr : Multiaddr)
    (addr : option Multiaddr) (peer : peerID) :
  p2pGetNode req = None ->
  HasPrefix listen "/ipfs" = false ->
  NewMultiaddr listen = Ok bindAddr ->
  ParsePeerParam target = Ok (addr, peer) ->
  let w1 := match addr with
            | Some a => emit (EvAddAddr peer (MultiaddrString a)) w
            | None => w
            end in
  let core := ForwardLocal peer ("/p2p/" ++ protocol)%string bindAddr
                listenResult w1 in
  let out := p2pForwardCmd_Run req protocol listen target listenResult w res in
  snd out = snd core
  /\ fst out = match fst core with
               | Err e => SetError e res
               | Ok _ => SetOutput OutNil res
               end
  /\ (forall a, addr = Some a ->
        exists k rest,
          calls (snd out)
          = calls w ++ EvAddAddr peer (MultiaddrString a)
                       :: EvListenersLock k :: rest).
Proof.
  intros Hnode Hl Hm Hp. cbn zeta. unfold p2pForwardCmd_Run.
  rewrite Hnode, Hl. unfold forwardLocal. rewrite Hm, Hp.
  split; [|split].
  - destruct (ForwardLocal _ _ _ _ _) as [[l|e] w2]; reflexivity.
  - destruct (ForwardLocal _ _ _ _ _) as [[l|e] w2]; reflexivity.
  - intros a ->.
    destruct (ForwardLocal_logs peer ("/p2p/" ++ protocol)%string bindAddr
                listenResult (emit (EvAddAddr peer (MultiaddrString a)) w))
      as (k & rest & Hlog).
    exists k, rest.
    destruct (ForwardLocal _ _ _ _ _) as [[l|e] w2]; cbn [snd result_err] in *;
      rewrite Hlog; cbn [emit calls]; now rewrite <- app_assoc.
Qed.

Lemma forward_local_core_call_witness :
  snd (p2pForwardCmd_Run (ext := testExternals) onlineNode "echo"
         "/ip4/127.0.0.1/tcp/4567" "/ipfs/QmPeer" (Ok 3%nat) testNode newResponse)
  = testNodeForwarding.
Proof.
  apply (forward_local_core_call (ext := testExternals) onlineNode "echo"
           "/ip4/127.0.0.1/tcp/4567" "/ipfs/QmPeer" (Ok 3%nat) testNode
           newResponse testBindAddr None "QmPeer"); reflexivity.
Defined.

(** X16.  With the node available, the close command refuses a request
    without any of [--all], [-p], [-l], [-t] and a request that combines
    [--all] with one of the others; in both cases it sets its error, leaves
    the output nil and closes nothing. *)
Theorem close_rejects_bad_options `{ext : Externals} (req : NodeEnv)
    (opts : CloseOpts) (order : list listenerKey) (w : P2P) (res : Response) :
  p2pGetNode req = None ->
  (optAll opts = false -> optProtocol opts = None ->
   optListenAddress opts = None -> optTargetAddress opts = None ->
   p2pCloseCmd_Run req opts order w res
   = (SetError "no connection matching options given" (SetOutput OutNil res), w))
  /\ (optAll opts = true ->
      is_Some (optProtocol opts) \/ is_Some (optListenAddress opts)
        \/ is_Some (optTargetAddress opts) ->
      p2pCloseCmd_Run req opts order w res
      = (SetError "can't combine --all with other matching options"
           (SetOutput OutNil res), w)).
Proof.
  intros Hnode. unfold p2pCloseCmd_Run. rewrite Hnode. split.
  - intros -> -> -> ->. reflexivity.
  - intros -> Hsome. cbn [orb negb andb].
    assert (Hor : opt_found (optProtocol opts) || opt_found (optListenAddress opts)
                  || opt_found (optTargetAddress opts) = true).
    { unfold opt_found.
      destruct Hsome as [H|[H|H]]; apply (bool_decide_eq_true_2 _) in H;
        rewrite H; cbn; rewrite ?orb_true_r; reflexivity. }
    now rewrite Hor.
Qed.

Lemma close_rejects_bad_options_witness :
  p2pCloseCmd_Run (ext := testExternals) onlineNode
    {| optAll := true; optProtocol := Some "b"%string;
       optListenAddress := None; optTargetAddress := None |}
    [keyA; keyB] twoListenersNode newResponse
  = (SetError "can't combine --all with other matching options"
       (SetOutput OutNil newResponse), twoListenersNode).
Proof.
  apply (close_rejects_bad_options (ext := testExternals) onlineNode _
           [keyA; keyB] twoListenersNode newResponse eq_refl).
  - reflexivity.
  - left. eexists. reflexivity.
Defined.

(** X17.  With the node available and well-formed options, the number the
    close command outputs is the number of [ListenerRegistry.Deregister]
    calls it made, that is, of listeners it closed. *)
Theorem close_reports_number_closed `{ext : Externals} (req : NodeEnv)
    (opts : CloseOpts) (order : list listenerKey) (w : P2P) (res : Response) :
  p2pGetNode req = None ->
  optAll opts || opt_found (optProtocol opts)
    || opt_found (optListenAddress opts) || opt_found (optTargetAddress opts) = true ->
  optAll opts && (opt_found (optProtocol opts)
    || opt_found (optListenAddress opts) || opt_found (optTargetAddress opts)) = false ->
  exists added,
    calls (snd (p2pCloseCmd_Run req opts order w res)) = calls w ++ added
    /\ resOutput (fst (p2pCloseCmd_Run req opts order w res))
       = OutInt (N.of_nat (length (List.filter is_ListenersDeregister added))).
Proof.
  intros Hnode Hsome Hcombine. unfold p2pCloseCmd_Run.
  rewrite Hnode, Hsome, Hcombine. cbn [negb].
  destruct (closeListeners_counts opts order (opt_value (optProtocol opts)) 0 w)
    as (added & Hcalls & Hcount).
  exists added.
  destruct (closeListeners _ _ _ _ _) as [closed w']. cbn [fst snd] in *.
  split; [exact Hcalls|]. rewrite Hcount. reflexivity.
Qed.

Lemma close_reports_number_closed_witness :
  exists added,
    calls (snd (p2pCloseCmd_Run (ext := testExternals) onlineNode
                  (closeByProtocol "b") [keyB; keyA] twoListenersNode newResponse))
    = calls twoListenersNode ++ added
    /\ resOutput (fst (p2pCloseCmd_Run (ext := testExternals) onlineNode
                        (closeByProtocol "b") [keyB; keyA] twoListenersNode
                        newResponse))
       = OutInt (N.of_nat (length (List.filter is_ListenersDeregister added))).
Proof.
  apply (close_reports_number_closed (ext := testExternals) onlineNode
           (closeByProtocol "b") [keyB; keyA] twoListenersNode newResponse);
    reflexivity.
Defined.

(** X18.  [close --all], with the node available, on a table in which every
    listener is stored under its own key and which the range visits key by
    key without repeats: every visited listener is closed, the output is
    their number, their keys are gone from the table and the other keys are
    mapped as before. *)
Theorem close_all_closes_every_listener `{ext : Externals} (req : NodeEnv)
    (order : list listenerKey) (w : P2P) (res : Response) :
  p2pGetNode req = None ->
  listeners_under_own_key (p2pListeners w) ->
  NoDup order ->
  (forall k, k ∈ order -> is_Some (Listeners (p2pListeners w) !! k)) ->
  let opts := {| optAll := true; optProtocol := None;
                 optListenAddress := None; optTargetAddress := None |} in
  let out := p2pCloseCmd_Run req opts order w res in
  fst out = SetOutput (OutInt (N.of_nat (length order))) (SetOutput OutNil res)
  /\ (forall k, k ∈ order -> Listeners (p2pListeners (snd out)) !! k = None)
  /\ (forall k, k ∉ order ->
        Listeners (p2pListeners (snd out)) !! k = Listeners (p2pListeners w) !! k).
Proof.
  intros Hnode Hinv Hnd Hpres. cbn zeta. unfold p2pCloseCmd_Run.
  rewrite Hnode. cbn [optAll optProtocol optListenAddress optTargetAddress
                      opt_found orb andb negb].
  change (opt_found None) with false. cbn [orb andb negb].
  destruct (closeListeners_all
              {| optAll := true; optProtocol := None;
                 optListenAddress := None; optTargetAddress := None |}
              order eq_refl (opt_value None) 0 w Hinv Hnd Hpres)
    as (Hc & Hgone & Hkeep).
  destruct (closeListeners _ _ _ _ _) as [closed w']. cbn [fst snd] in *.
  subst closed. rewrite N.add_0_l. now repeat split.
Qed.

Lemma twoListenersNode_table :
  Listeners (p2pListeners twoListenersNode)
  = <[keyB := LocalL (bind_socket
                        (candidate testNode "QmPeer" "/p2p/b"
                           ("/ip4/127.0.0.1/tcp/1002" : @Multiaddr testExternals)) 4)]>
      (<[keyA := LocalL (bind_socket
                           (candidate testNode "QmPeer" "/p2p/a"
                              ("/ip4/127.0.0.1/tcp/1001" : @Multiaddr testExternals)) 3)]>
         ∅).
Proof. reflexivity. Qed.

Lemma close_all_closes_every_listener_witness :
  fst (p2pCloseCmd_Run (ext := testExternals) onlineNode
         {| optAll := true; optProtocol := None;
            optListenAddress := None; optTargetAddress := None |}
         [keyA; keyB] twoListenersNode newResponse)
  = SetOutput (OutInt 2) (SetOutput OutNil newResponse).
Proof.
  apply (close_all_closes_every_listener (ext := testExternals) onlineNode
           [keyA; keyB] twoListenersNode newResponse eq_refl).
  - intros k l Hk. rewrite twoListenersNode_table in Hk.
    apply lookup_insert_Some in Hk as [[<- <-]|[_ Hk]]; [reflexivity|].
    apply lookup_insert_Some in Hk as [[<- <-]|[_ Hk]]; [reflexivity|].
    rewrite lookup_empty in Hk. discriminate Hk.
  - apply NoDup_cons. split; [|apply NoDup_singleton].
    intros Hin. apply list_elem_of_singleton in Hin. discriminate Hin.
  - intros k Hk. rewrite twoListenersNode_table.
    apply elem_of_cons in Hk as [->|Hk].
    + rewrite lookup_insert_ne by discriminate. rewrite lookup_insert_eq. eauto.
    + apply list_elem_of_singleton in Hk as ->. rewrite lookup_insert_eq. eauto.
Defined.

Lemma closeMatch_first_visit_aux `{ext : Externals} (opts : CloseOpts) (l : Listener) :
  fst (closeMatch opts (opt_value (optProtocol opts)) l) = true
  <-> optAll opts = true
      \/ ((forall s, optProtocol opts = Some s ->
             Listener_Protocol l = ("/p2p/" ++ s)%string)
          /\ (forall a, optListenAddress opts = Some a ->
                Listener_ListenAddress l = a)
          /\ (forall t, optTargetAddress opts = Some t ->
                Listener_TargetAddress l = t)).
Proof.
  unfold closeMatch. cbn [fst].
  destruct opts as [a p la ta]. cbn [optAll optProtocol optListenAddress
                                     optTargetAddress].
  assert (Hf : forall o : option string,
            opt_found o = match o with Some _ => true | None => false end).
  { intros [s|]; reflexivity. }
  rewrite !Hf.
  destruct a; [rewrite orb_true_r; tauto|]. rewrite orb_false_r.
  destruct p as [s|], la as [x|], ta as [t|];
    cbn [opt_value default orb andb negb]; unfold Datatypes.id;
    rewrite ?andb_true_iff, ?String.eqb_eq;
    (split;
     [ intros H; right; repeat split; intros ? Heq; inversion Heq; subst;
       intuition congruence
     | intros [H|(H1 & H2 & H3)]; [discriminate|];
       repeat split; try reflexivity; symmetry;
       first [now apply H1 | now apply H2 | now apply H3] ]).
Qed.

(** X19.  For the first listener the range visits (the captured variable
    still holds the option's value), the closure's verdict is as intended:
    it accepts the listener exactly when [--all] is set or every option
    given equals what the listener reports, the protocol option being
    compared after "/p2p/" is put in front of it. *)
Theorem closeMatch_first_visit `{ext : Externals} (opts : CloseOpts) (l : Listener) :
  fst (closeMatch opts (opt_value (optProtocol opts)) l) = true
  <-> optAll opts = true
      \/ ((forall s, optProtocol opts = Some s ->
             Listener_Protocol l = ("/p2p/" ++ s)%string)
          /\ (forall a, optListenAddress opts = Some a ->
                Listener_ListenAddress l = a)
          /\ (forall t, optTargetAddress opts = Some t ->
                Listener_TargetAddress l = t)).
Proof. apply closeMatch_first_visit_aux. Qed.

(** X20.  When the protocol option is not given, the closure's verdict does
    not depend on the captured variable: a listener is accepted exactly when
    [--all] is set or the given listen and target addresses equal what it
    reports, and the loop's result is the same whatever value the variable
    starts with. *)
Theorem close_without_protocol `{ext : Externals} (opts : CloseOpts) :
  optProtocol opts = None ->
  (forall proto l,
     fst (closeMatch opts proto l) = true
     <-> optAll opts = true
         \/ ((forall a, optListenAddress opts = Some a ->
                Listener_ListenAddress l = a)
             /\ (forall t, optTargetAddress opts = Some t ->
                   Listener_TargetAddress l = t)))
  /\ (forall order proto1 proto2 closed (w : P2P),
        closeListeners opts order proto1 closed w
        = closeListeners opts order proto2 closed w).
Proof.
  intros Hp. split; [|intros; now apply closeListeners_without_protocol].
  intros proto l.
  rewrite (closeMatch_without_protocol opts proto (opt_value (optProtocol opts)) l Hp).
  rewrite closeMatch_first_visit_aux. rewrite Hp.
  split; (intros [H|H]; [now left|right]); intuition congruence.
Qed.

Lemma close_without_protocol_witness :
  closeListeners (ext := testExternals)
    {| optAll := false; optProtocol := None;
       optListenAddress := Some "/ip4/127.0.0.1/tcp/1002"%string;
       optTargetAddress := None |}
    [keyA; keyB] "" 0 twoListenersNode
  = closeListeners (ext := testExternals)
      {| optAll := false; optProtocol := None;
         optListenAddress := Some "/ip4/127.0.0.1/tcp/1002"%string;
         optTargetAddress := None |}
      [keyA; keyB] "/p2p//p2p/" 0 twoListenersNode.
Proof.
  apply (close_without_protocol (ext := testExternals)
           {| optAll := false; optProtocol := None;
              optListenAddress := Some "/ip4/127.0.0.1/tcp/1002"%string;
              optTargetAddress := None |}).
  reflexivity.
Defined.

Section ListingFacts.
Context `{ext : Externals}.
Variable FormatUint : uint64 -> string.

Lemma lsListeners_row order (w : P2P) :
  (forall k, k ∈ order -> is_Some (Listeners (p2pListeners w) !! k)) ->
  forall (i : nat) k l,
    order !! i = Some k -> Listeners (p2pListeners w) !! k = Some l ->
    lsListeners order w !! i = Some (listenerInfo l).
Proof.
  induction order as [|k0 order IH]; intros Hp i k l Hi Hl; [discriminate|].
  cbn [lsListeners]. destruct (Hp k0 ltac:(left)) as [l0 Hl0]. rewrite Hl0.
  destruct i as [|i]; cbn in Hi |- *.
  - inversion Hi; subst. congruence.
  - apply (IH (fun k' Hk' => Hp k' (proj2 (elem_of_cons _ _ _) (or_intror Hk')))
             i k l Hi Hl).
Qed.

Lemma lsStreams_row order (w : P2P) :
  (forall k, k ∈ order -> is_Some (Streams (p2pStreams w) !! k)) ->
  forall (i : nat) k s,
    order !! i = Some k -> Streams (p2pStreams w) !! k = Some s ->
    lsStreams FormatUint order w !! i = Some (streamInfo FormatUint k s).
Proof.
  induction order as [|k0 order IH]; intros Hp i k l Hi Hl; [discriminate|].
  cbn [lsStreams]. destruct (Hp k0 ltac:(left)) as [l0 Hl0]. rewrite Hl0.
  destruct i as [|i]; cbn in Hi |- *.
  - inversion Hi; subst. congruence.
  - apply (IH (fun k' Hk' => Hp k' (proj2 (elem_of_cons _ _ _) (or_intror Hk')))
             i k l Hi Hl).
Qed.

Lemma lsTextWrites_plain rows : lsTextWrites false rows = lsRow <$> rows.
Proof. induction rows as [|r rows IH]; cbn; [reflexivity|]. now rewrite IH. Qed.

Lemma lsTextWrites_headers rows :
  length (lsTextWrites true rows) = (2 * length rows)%nat
  /\ forall (i : nat) r, rows !! i = Some r ->
       lsTextWrites true rows !! (2 * i)%nat = Some lsHeader
       /\ lsTextWrites true rows !! (2 * i + 1)%nat = Some (lsRow r).
Proof.
  induction rows as [|r0 rows [IHl IHr]]; cbn [lsTextWrites length].
  - split; [reflexivity|]. intros i r Hi. discriminate.
  - split; [lia|]. intros i r Hi. destruct i as [|i]; cbn in Hi.
    + inversion Hi; subst. now split.
    + replace (2 * S i)%nat with (S (S (2 * i))) by lia.
      replace (S (S (2 * i)) + 1)%nat with (S (S (2 * i + 1))) by lia.
      cbn [lookup list_lookup]. now apply IHr.
Qed.

Lemma streamsTextWrites_plain rows :
  streamsTextWrites false rows = streamsRow <$> rows.
Proof. induction rows as [|r rows IH]; cbn; [reflexivity|]. now rewrite IH. Qed.

Lemma streamsTextWrites_headers rows :
  length (streamsTextWrites true rows) = (2 * length rows)%nat
  /\ forall (i : nat) r, rows !! i = Some r ->
       streamsTextWrites true rows !! (2 * i)%nat = Some streamsHeader
       /\ streamsTextWrites true rows !! (2 * i + 1)%nat = Some (streamsRow r).
Proof.
  induction rows as [|r0 rows [IHl IHr]]; cbn [streamsTextWrites length].
  - split; [reflexivity|]. intros i r Hi. discriminate.
  - split; [lia|]. intros i r Hi. destruct i as [|i]; cbn in Hi.
    + inversion Hi; subst. now split.
    + replace (2 * S i)%nat with (S (S (2 * i))) by lia.
      replace (S (S (2 * i)) + 1)%nat with (S (S (2 * i + 1))) by lia.
      cbn [lookup list_lookup]. now apply IHr.
Qed.

End ListingFacts.

(** X21.  [stream close <id>], with the node available, for an id that
    parses to a handle of the table which the range visits: exactly that
    stream is reset (local connection closed, overlay stream reset, handle
    deregistered), no error is set, and when the stream carries its key as
    handle the key is gone from the table afterwards. *)
Theorem stream_close_resets_that_stream `{ext : Externals} (req : NodeEnv)
    (arg0 : string) (rest : list string) (order : list uint64) (w : P2P)
    (res : Response) (h : uint64) (s : Stream) :
  p2pGetNode req = None ->
  ParseUint arg0 = Ok h ->
  Streams (p2pStreams w) !! h = Some s ->
  h ∈ order ->
  let out := p2pStreamCloseCmd_Run req false (arg0 :: rest) order w res in
  out = (SetOutput OutNil res, snd (Stream_Reset s w))
  /\ calls (snd out)
     = calls w ++ [EvConnClose (connId (Local s)); EvStreamReset (Remote s);
                   EvStreamsDeregister (id s)]
  /\ (id s = h -> Streams (p2pStreams (snd out)) !! h = None).
Proof.
  intros Hnode Hparse Hs Hin. cbn zeta. unfold p2pStreamCloseCmd_Run.
  rewrite Hnode. cbn [negb]. rewrite Hparse.
  rewrite (closeStreams_present h s order w Hs Hin). cbn [snd].
  split; [reflexivity|]. split; [apply Stream_Reset_calls|].
  intros <-. rewrite Stream_Reset_streams. cbn. apply lookup_delete_eq.
Qed.

Lemma stream_close_resets_that_stream_witness :
  let w := snd (Streams_Register (testStream 1) testNode) in
  calls (snd (p2pStreamCloseCmd_Run (ext := testExternals) onlineNode false
                ["0"%string] [0] w newResponse))
  = calls w ++ [EvConnClose 1; EvStreamReset 1; EvStreamsDeregister 0].
Proof.
  intros w.
  apply (stream_close_resets_that_stream (ext := testExternals) onlineNode
           "0" [] [0] w newResponse 0 (set_id (testStream 1) 0)).
  - reflexivity.
  - reflexivity.
  - apply lookup_insert_eq.
  - constructor.
Defined.

(** X22.  [stream close --all], with the node available, on a table whose
    entries carry their key as handle and whose keys the range all visits:
    the positional arguments are not read, no error is set, the table of
    streams is empty afterwards and the table of listeners is as before. *)
Theorem stream_close_all_empties_table `{ext : Externals} (req : NodeEnv)
    (args : list string) (order : list uint64) (w : P2P) (res : Response) :
  p2pGetNode req = None ->
  handles_match_keys (p2pStreams w) ->
  (forall k, is_Some (Streams (p2pStreams w) !! k) -> k ∈ order) ->
  let out := p2pStreamCloseCmd_Run req true args order w res in
  fst out = SetOutput OutNil res
  /\ Streams (p2pStreams (snd out)) = ∅
  /\ p2pListeners (snd out) = p2pListeners w.
Proof.
  intros Hnode Hinv Hcover. cbn zeta. unfold p2pStreamCloseCmd_Run.
  rewrite Hnode. cbn [negb fst snd].
  destruct (closeStreams_all order w 0 Hinv) as (Hgone & Hkeep & Hlis).
  split; [reflexivity|]. split; [|exact Hlis].
  apply map_empty. intros k.
  destruct (decide (k ∈ order)) as [Hin|Hnin]; [now apply Hgone|].
  rewrite Hkeep by assumption.
  destruct (Streams (p2pStreams w) !! k) as [s|] eqn:Hk;
    [|first [reflexivity | exact Hk]].
  exfalso. apply Hnin, Hcover. rewrite Hk. eauto.
Qed.

Lemma stream_close_all_empties_table_witness :
  let w := snd (Streams_Register (testStream 1) testNode) in
  fst (p2pStreamCloseCmd_Run (ext := testExternals) onlineNode true
         ["not a number"%string] [0] w newResponse)
  = SetOutput OutNil newResponse.
Proof.
  intros w.
  apply (stream_close_all_empties_table (ext := testExternals) onlineNode
           ["not a number"%string] [0] w newResponse eq_refl).
  - intros h s Hh. cbn in Hh.
    apply lookup_insert_Some in Hh as [[<- <-]|[_ Hh]]; [reflexivity|].
    rewrite lookup_empty in Hh. discriminate Hh.
  - intros k [s Hk]. cbn in Hk.
    apply lookup_insert_Some in Hk as [[<- _]|[_ Hk]]; [constructor|].
    rewrite lookup_empty in Hk. discriminate Hk.
Defined.

(** X23.  With the node available the two listing commands set no error.
    On an empty table the output is the empty list; when the range visits
    keys of the table, the output has one row per visited key, in that order:
    a listener's row holds what it reports as protocol, listen address and
    target address, a stream's row holds the printed key, the protocol and
    the text of the origin and target addresses. *)
Theorem listing_rows `{ext : Externals} (FormatUint : uint64 -> string)
    (req : NodeEnv) (w : P2P) (lorder : list listenerKey) (sorder : list uint64) :
  p2pGetNode req = None ->
  (p2pLsCmd_Run req lorder w
     = {| lrError := None; lrOutput := Some (lsListeners lorder w) |}
   /\ p2pStreamLsCmd_Run FormatUint req sorder w
      = {| lrError := None; lrOutput := Some (lsStreams FormatUint sorder w) |})
  /\ (Listeners (p2pListeners w) = ∅ -> lsListeners lorder w = [])
  /\ (Streams (p2pStreams w) = ∅ -> lsStreams FormatUint sorder w = [])
  /\ ((forall k, k ∈ lorder -> is_Some (Listeners (p2pListeners w) !! k)) ->
      length (lsListeners lorder w) = length lorder
      /\ forall (i : nat) k l,
           lorder !! i = Some k -> Listeners (p2pListeners w) !! k = Some l ->
           lsListeners lorder w !! i
           = Some {| li_Protocol := Listener_Protocol l;
                     li_ListenAddress := Listener_ListenAddress l;
                     li_TargetAddress := Listener_TargetAddress l |})
  /\ ((forall k, k ∈ sorder -> is_Some (Streams (p2pStreams w) !! k)) ->
      length (lsStreams FormatUint sorder w) = length sorder
      /\ forall (i : nat) k s,
           sorder !! i = Some k -> Streams (p2pStreams w) !! k = Some s ->
           lsStreams FormatUint sorder w !! i
           = Some {| si_HandlerID := FormatUint k;
                     si_Protocol := Protocol s;
                     si_OriginAddress := MultiaddrString (OriginAddr s);
                     si_TargetAddress := MultiaddrString (TargetAddr s) |}).
Proof.
  intros Hnode. unfold p2pLsCmd_Run, p2pStreamLsCmd_Run. rewrite Hnode.
  split; [now split|].
  split; [apply lsListeners_empty|].
  split; [apply lsStreams_empty|].
  split.
  - intros Hp. split; [now apply lsListeners_length|].
    intros i k l Hi Hl. now apply (lsListeners_row lorder w Hp i k l).
  - intros Hp. split; [now apply lsStreams_length|].
    intros i k s Hi Hs. now apply (lsStreams_row FormatUint sorder w Hp i k s).
Qed.

Lemma listing_rows_witness :
  lsListeners (ext := testExternals) [keyB; keyA] testNode = [].
Proof.
  apply (listing_rows (ext := testExternals) (fun _ => EmptyString) onlineNode
           testNode [keyB; keyA] [] eq_refl).
  reflexivity.
Defined.

(** X24.  The text marshalers of the listing commands write one row line per
    entry.  With [--headers] the header line is written before every row
    (the writes alternate header, row), so twice as many lines as entries;
    for an empty list nothing is written, not even the header. *)
Theorem listing_text_headers `{ext : Externals}
    (lrows : list P2PListenerInfoOutput) (srows : list P2PStreamInfoOutput) :
  (lsTextWrites false lrows = lsRow <$> lrows
   /\ length (lsTextWrites true lrows) = (2 * length lrows)%nat
   /\ (forall (i : nat) r, lrows !! i = Some r ->
         lsTextWrites true lrows !! (2 * i)%nat = Some lsHeader
         /\ lsTextWrites true lrows !! (2 * i + 1)%nat = Some (lsRow r))
   /\ lsTextWrites true [] = [])
  /\
  (streamsTextWrites false srows = streamsRow <$> srows
   /\ length (streamsTextWrites true srows) = (2 * length srows)%nat
   /\ (forall (i : nat) r, srows !! i = Some r ->
         streamsTextWrites true srows !! (2 * i)%nat = Some streamsHeader
         /\ streamsTextWrites true srows !! (2 * i + 1)%nat = Some (streamsRow r))
   /\ streamsTextWrites true [] = []).
Proof.
  destruct (lsTextWrites_headers lrows) as [Hl1 Hl2].
  destruct (streamsTextWrites_headers srows) as [Hs1 Hs2].
  split.
  - split; [apply lsTextWrites_plain|]. split; [exact Hl1|].
    split; [exact Hl2 | reflexivity].
  - split; [apply streamsTextWrites_plain|]. split; [exact Hs1|].
    split; [exact Hs2 | reflexivity].
Qed.
